(** * Bit stream utilities of SPIRV-Tools (source/util/bit_stream.h)

    A shallow embedding of the helpers, the zigzag codecs, the string
    conversions and the variable-width chunk encoding of [bit_stream.h].

    Integers of the C++ code are modelled as [Z]: a value of an unsigned
    [w]-bit type lies in [0, 2^w), a value of [int64_t] in [-2^63, 2^63).
    Every operation of the source whose result can leave its type's range
    has its wrap-around written out ([u64], [i64], [uw]).  An operation the
    source guards by [assert], or whose behaviour is undefined in C++ (a
    shift by at least the width of the shifted type), makes the enclosing
    function return [None]. *)

From Stdlib Require Import ZArith Lia List Bool Ascii String.
Import ListNotations.

Local Open Scope Z_scope.

Notation "x <- a ;; b" :=
  (match a with Some x => b | None => None end)
  (at level 60, right associativity, a at level 59).

(** ** Fixed-width arithmetic *)

(** Conversion to (or arithmetic in) an unsigned [w]-bit type. *)
Definition uw (w : Z) (z : Z) : Z := z mod 2 ^ w.

(** Conversion to (or arithmetic in) [uint64_t]. *)
Definition u64 (z : Z) : Z := uw 64 z.

(** Conversion to (or arithmetic in) [int64_t]: two's complement wrap. *)
Definition i64 (z : Z) : Z := (z + 2 ^ 63) mod 2 ^ 64 - 2 ^ 63.

Definition is_u64 (z : Z) : Prop := 0 <= z < 2 ^ 64.
Definition is_i64 (z : Z) : Prop := - 2 ^ 63 <= z < 2 ^ 63.

(** Operands narrower than [int] are promoted to [int] (32 bits) before a
    shift, so [T(1) << n] is evaluated at width [max w 32]. *)
Definition promoted_width (w : Z) : Z := Z.max w 32.

(** [x << n] at width [width]: undefined (here [None]) when [n] is not
    below the width; otherwise the result taken modulo [2^width]. *)
Definition shl_checked (width x n : Z) : option Z :=
  if (0 <=? n) && (n <? width) then Some (uw width (Z.shiftl x n)) else None.

(** ** [NumBitsToNumWords] and [GetLowerBits] *)

(** [template <size_t N> size_t NumBitsToNumWords(size_t num_bits)]:
    [(num_bits + (N - 1)) / N], computed in [size_t] (64 bits). *)
Definition NumBitsToNumWords (N num_bits : Z) : Z :=
  u64 (num_bits + u64 (N - 1)) / N.

(** [template <typename T> T GetLowerBits(T in, size_t num_bits)], for a
    type [T] of [w] bits:
    [sizeof(T) * 8 == num_bits ? in : in & T((T(1) << num_bits) - T(1))]. *)
Definition GetLowerBits (w : Z) (in_ num_bits : Z) : option Z :=
  if w =? num_bits then Some in_
  else
    s <- shl_checked (promoted_width w) 1 num_bits ;;
    Some (Z.land in_ (uw w (s - 1))).

(** ** Zigzag codecs *)

(** [uint64_t EncodeZigZag(int64_t val)]:
    [(val << 1) ^ (val >> 63)]; the shift and the xor are on [int64_t]
    (two's complement, arithmetic right shift), the result converted to
    [uint64_t]. *)
Definition EncodeZigZag (val : Z) : Z :=
  u64 (Z.lxor (i64 (Z.shiftl val 1)) (Z.shiftr val 63)).

(** [int64_t DecodeZigZag(uint64_t val)].  In [-1 - (val >> 1)] the [int]
    [-1] is converted to [uint64_t]; the [uint64_t] result is converted
    back to [int64_t] on return. *)
Definition DecodeZigZag (val : Z) : Z :=
  if negb (Z.land val 1 =? 0) then i64 (u64 (u64 (-1) - Z.shiftr val 1))
  else i64 (Z.shiftr val 1).

(** [uint64_t EncodeZigZag(int64_t val, size_t block_exponent)]; the
    [assert(block_exponent < 64)] fails with [None]. *)
Definition EncodeZigZag_block (val block_exponent : Z) : option Z :=
  if negb (block_exponent <? 64) then None
  else
    let uval := u64 (if 0 <=? val then val else i64 (i64 (- val) - 1)) in
    let block_num :=
      u64 (u64 (Z.shiftl (Z.shiftr uval block_exponent) 1)
           + (if 0 <=? val then 0 else 1)) in
    pos <- GetLowerBits 64 uval block_exponent ;;
    Some (u64 (u64 (Z.shiftl block_num block_exponent) + pos)).

(** [int64_t DecodeZigZag(uint64_t val, size_t block_exponent)].  In the
    negative branch [-1LL] is converted to [uint64_t]. *)
Definition DecodeZigZag_block (val block_exponent : Z) : option Z :=
  if negb (block_exponent <? 64) then None
  else
    let block_num := Z.shiftr val block_exponent in
    pos <- GetLowerBits 64 val block_exponent ;;
    if negb (Z.land block_num 1 =? 0) then
      Some (i64 (u64 (u64 (u64 (-1)
                            - u64 (Z.shiftl (Z.shiftr block_num 1) block_exponent))
                      - pos)))
    else
      Some (i64 (u64 (u64 (Z.shiftl (Z.shiftr block_num 1) block_exponent) + pos))).



(** ** Strings of bits *)

(** A [std::string] is a list of characters. *)
Definition std_string := list ascii.

(** [template <size_t N> std::string PadToWord(std::string&& str)]:
    appends [N - tail_length] characters ['0'] when [str.size() % N] is
    not zero. *)
Definition PadToWord (N : nat) (str : std_string) : std_string :=
  let tail_length := (List.length str mod N)%nat in
  if negb (tail_length =? 0)%nat then str ++ repeat "0"%char (N - tail_length)
  else str.

(** ** The byte size of a writer's output *)

(** [ceil(a / b)] for [b > 0]; used to state the specification. *)
Definition ceil_div (a b : Z) : Z := - (- a / b).

(** [BitWriterWord64]: the words written so far and [end_], the number of
    bits written ([size_t]). *)
Record BitWriterWord64 := mkBitWriterWord64 {
  buffer_ : list Z;
  end_ : Z
}.

(** [explicit BitWriterWord64(size_t reserve_bits = 64)]: the reservation
    only reserves capacity; the writer starts empty. *)
Definition BitWriterWord64_new : BitWriterWord64 :=
  {| buffer_ := []; end_ := 0 |}.

(** [w] with its element at index [i] replaced by [f] of it; nothing
    happens out of range. *)
Fixpoint update_nth {A} (i : nat) (f : A -> A) (l : list A) : list A :=
  match l, i with
  | [], _ => []
  | x :: l', O => f x :: l'
  | x :: l', S i' => x :: update_nth i' f l'
  end.

(** Modelled from the spec: [BitWriterWord64::WriteBits] (its body lives in
    [bit_stream.cpp], not among the sources).  Section 4.4: [num_bits] is at
    most 64; [bits] is masked to its low [num_bits] bits and placed from
    bit offset [end] on, in the word [end / 64] and, when
    [end % 64 + num_bits] exceeds the word width, in the next one; zero
    words are appended when the buffer is exhausted; [end] grows by
    [num_bits]. *)
Definition WriteBits (w : BitWriterWord64) (bits num_bits : Z)
  : option BitWriterWord64 :=
  if negb ((0 <=? num_bits) && (num_bits <=? 64)) then None
  else
    bits <- GetLowerBits 64 bits num_bits ;;
    let end0 := end_ w in
    let index := Z.to_nat (end0 / 64) in
    let offset := end0 mod 64 in
    let needed := Z.to_nat ((end0 + num_bits + 63) / 64) in
    let buf := buffer_ w ++ repeat 0 (needed - List.length (buffer_ w)) in
    let buf := update_nth index (fun x => Z.lor x (u64 (Z.shiftl bits offset))) buf in
    let buf :=
      if 64 <? offset + num_bits
      then update_nth (S index) (fun x => Z.lor x (Z.shiftr bits (64 - offset))) buf
      else buf in
    Some {| buffer_ := buf; end_ := u64 (end0 + num_bits) |}.

(** [size_t GetNumBits() const]. *)
Definition GetNumBits (w : BitWriterWord64) : Z := end_ w.

(** [size_t GetDataSizeBytes() const]:
    [NumBitsToNumWords<8>(GetNumBits())]. *)
Definition GetDataSizeBytes (w : BitWriterWord64) : Z :=
  NumBitsToNumWords 8 (GetNumBits w).

(** The bytes of a 64-bit word in memory, least significant first (the
    byte order of the host, taken little-endian). *)
Definition word_bytes (word : Z) : list Z :=
  map (fun i => Z.land (Z.shiftr word (8 * Z.of_nat i)) 255) (seq 0 8).

(** [const uint8_t* GetData() const]: the word array viewed as bytes. *)
Definition GetData (w : BitWriterWord64) : list Z :=
  flat_map word_bytes (buffer_ w).

(** [std::vector<uint8_t> GetDataCopy() const]: the [GetDataSizeBytes()]
    bytes from [GetData()]; reading beyond the word array is undefined
    ([None]). *)
Definition GetDataCopy (w : BitWriterWord64) : option (list Z) :=
  let n := GetDataSizeBytes w in
  if n <=? Z.of_nat (List.length (GetData w)) then Some (firstn (Z.to_nat n) (GetData w))
  else None.

(** Writers reachable from a new writer by calls of [WriteBits]. *)
Inductive writer_reachable : BitWriterWord64 -> Prop :=
  | reach_new : writer_reachable BitWriterWord64_new
  | reach_write w bits n w' :
      writer_reachable w -> WriteBits w bits n = Some w' -> writer_reachable w'.

(** ** Buffers and streams *)

(** [std::bitset<N>(val).to_string()]: [N] characters, the one of bit
    [N - 1] first. *)
Definition bitset_to_string (N : nat) (val : Z) : std_string :=
  map (fun i => if Z.testbit val (Z.of_nat i) then "1"%char else "0"%char)
      (rev (seq 0 N)).

(** [template <typename T> std::string BufferToStream(const std::vector<T>&)]
    for a type [T] of [w] bits: the [to_string()] of every word, reversed,
    one after the other. *)
Definition BufferToStream (w : nat) (buffer : list Z) : std_string :=
  List.concat (map (fun word => rev (bitset_to_string w word)) buffer).

(** [static_cast<int>] of a value: two's complement wrap to 32 bits. *)
Definition i32 (z : Z) : Z := (z + 2 ^ 31) mod 2 ^ 32 - 2 ^ 31.

(** Arithmetic on [int]: an overflow is undefined ([None]). *)
Definition int_checked (z : Z) : option Z :=
  if (- 2 ^ 31 <=? z) && (z <? 2 ^ 31) then Some z else None.

(** One character of the string constructor of [std::bitset]: ['0'] and
    ['1'] are the digits, anything else throws [std::invalid_argument]. *)
Definition bitset_digit (acc : option Z) (c : ascii) : option Z :=
  a <- acc ;;
  if Ascii.eqb c "0"%char then Some (2 * a)
  else if Ascii.eqb c "1"%char then Some (2 * a + 1)
  else None.

(** [std::bitset<N>(str, pos, n).to_ullong()], [N <= 64]: throws
    [std::out_of_range] when [pos > str.size()]; otherwise the first
    [min(N, n, str.size() - pos)] characters from [pos] are the bits, most
    significant first. *)
Definition bitset_from_string (N : nat) (str : std_string) (pos n : nat)
  : option Z :=
  if Nat.ltb (List.length str) pos then None
  else fold_left bitset_digit (firstn (Nat.min N n) (skipn pos str)) (Some 0).

(** The loop [for (int index = ...; index >= 0; index -= word_size)] of
    [StreamToBuffer], pushing [static_cast<T>(std::bitset<w>(str, index,
    word_size).to_ullong())].  [fuel] bounds the iterations; it is given as
    one more than the string length, and [index] drops by [word_size >= 1]
    at each iteration from at most that length, so it never runs out. *)
Fixpoint StreamToBuffer_loop (fuel : nat) (w : nat) (word_size : Z)
  (str : std_string) (index : Z) : option (list Z) :=
  match fuel with
  | O => Some []
  | S fuel' =>
      if 0 <=? index then
        word <- bitset_from_string w str (Z.to_nat index) (Z.to_nat word_size) ;;
        index' <- int_checked (index - word_size) ;;
        rest <- StreamToBuffer_loop fuel' w word_size str index' ;;
        Some (uw (Z.of_nat w) word :: rest)
      else Some []
  end.

(** [template <typename T> std::vector<T> StreamToBuffer(std::string str)]
    for a type [T] of [w] bits; [None] when a [std::bitset] constructor
    throws or an [int] operation overflows.  ([buffer.reserve] has no
    effect on the result.) *)
Definition StreamToBuffer (w : nat) (str : std_string) : option (list Z) :=
  let str := rev str in
  let word_size := i32 (Z.of_nat w) in
  let str_length := i32 (Z.of_nat (List.length str)) in
  start <- int_checked (str_length - word_size) ;;
  buffer <- StreamToBuffer_loop (S (List.length str)) w word_size str start ;;
  let suffix_length := (List.length str mod Z.to_nat word_size)%nat in
  if negb (suffix_length =? 0)%nat then
    word <- bitset_from_string w str 0 suffix_length ;;
    Some (buffer ++ [uw (Z.of_nat w) word])
  else Some buffer.

(** ** Bitsets and streams of one word *)

(** [template <size_t N> std::bitset<N> StreamToBitset(std::string str)]:
    [str] reversed, then [std::bitset<N>(str)] (position 0, [npos]
    characters); the value of the bitset, [None] when the constructor
    throws [std::invalid_argument].  As in [bitset_from_string], only the
    [N] characters used are checked (libstdc++'s behaviour; the standard
    also checks the characters past them), so the properties below take
    streams of at most [N] characters, or of ['0'] and ['1'] only. *)
Definition StreamToBitset (N : nat) (str : std_string) : option Z :=
  let str := rev str in
  bitset_from_string N str 0 (List.length str).

(** [template <size_t N> std::string BitsetToStream(const std::bitset<N>&
    bits, size_t num_bits = N)]: [bits.to_string().substr(N - num_bits)],
    reversed.  [N - num_bits] is a [size_t] difference; [substr] throws
    [std::out_of_range] ([None]) when its position exceeds the [N]
    characters of the string. *)
Definition BitsetToStream (N : nat) (bits : Z) (num_bits : Z)
  : option std_string :=
  let pos := u64 (Z.of_nat N - num_bits) in
  if Z.of_nat N <? pos then None
  else Some (rev (skipn (Z.to_nat pos) (bitset_to_string N bits))).

(** [uint64_t StreamToBits(std::string str)]: [str] reversed, then
    [std::bitset<64>(str).to_ullong()]. *)
Definition StreamToBits (str : std_string) : option Z :=
  let str := rev str in
  bitset_from_string 64 str 0 (List.length str).

(** [std::string BitsToStream(uint64_t bits, size_t num_bits = 64)]:
    [BitsetToStream(std::bitset<64>(bits), num_bits)]. *)
Definition BitsToStream (bits num_bits : Z) : option std_string :=
  BitsetToStream 64 (u64 bits) num_bits.

(** The words the loop of [StreamToBuffer] reads from chunks of
    characters, one [std::bitset] per chunk (used in the proofs about
    [StreamToBuffer] on any string). *)
Fixpoint read_words (w : nat) (D : list std_string) : option (list Z) :=
  match D with
  | [] => Some []
  | d :: D' =>
      word <- fold_left bitset_digit d (Some 0) ;;
      rest <- read_words w D' ;;
      Some (uw (Z.of_nat w) word :: rest)
  end.

(** ** Variable-width chunk encoding

    [WriteVariableWidthU64 .. S8] and [ReadVariableWidthU64 .. S8] are
    declared in [bit_stream.h]; their bodies, and those of
    [BitReaderWord64], are in [bit_stream.cpp], which is not part of this
    tree. *)

(** Modelled from the spec: the stream seen through the raw-bit interface
    of a writer or reader, as the sequence of its bits in stream order.
    [WriteBits] appends the low [n] bits of [bits], least significant bit
    first; [ReadBits] consumes up to [n] bits and returns how many it
    produced together with their value (bit [i] of the value is the [i]th
    bit consumed), producing fewer than [n] only at the end of the stream. *)
Definition BitStream := list bool.

Fixpoint bits_of (x : Z) (n : nat) : BitStream :=
  match n with
  | O => []
  | S n' => Z.odd x :: bits_of (Z.div2 x) n'
  end.

Fixpoint value_of (l : BitStream) : Z :=
  match l with
  | [] => 0
  | b :: l' => Z.b2z b + 2 * value_of l'
  end.

Definition StreamWriteBits (s : BitStream) (bits : Z) (num_bits : nat)
  : BitStream :=
  s ++ bits_of bits num_bits.

Definition StreamReadBits (s : BitStream) (num_bits : nat)
  : nat * Z * BitStream :=
  let got := firstn num_bits s in
  (List.length got, value_of got, skipn num_bits s).

(** Modelled from the spec (4.3, Encode): while fewer than [max_payload]
    bits are written, write the next [chunk_length]-bit slice of [val];
    stop once [max_payload] bits are written, else shift the slice out of
    [val] and write a signal bit, 1 if [val] is still non-zero (then loop)
    and 0 otherwise (then stop).  [fuel] bounds the iterations; it is given
    as [max_payload], and each iteration writes [chunk_length >= 1] bits. *)
Fixpoint WriteVariableWidth_loop (fuel : nat) (s : BitStream) (val : Z)
  (payload_written max_payload chunk_length : nat) : BitStream :=
  match fuel with
  | O => s
  | S fuel' =>
      let s := StreamWriteBits s val chunk_length in
      let payload_written := (payload_written + chunk_length)%nat in
      if (max_payload <=? payload_written)%nat then s
      else
        let val := Z.shiftr val (Z.of_nat chunk_length) in
        if val =? 0 then StreamWriteBits s 0 1
        else WriteVariableWidth_loop fuel' (StreamWriteBits s 1 1) val
               payload_written max_payload chunk_length
  end.

Definition WriteVariableWidthInternal (s : BitStream) (val : Z)
  (chunk_length max_payload : nat) : BitStream :=
  WriteVariableWidth_loop max_payload s val 0 max_payload chunk_length.

(** Modelled from the spec (4.3, Decode): while fewer than [max_payload]
    bits are consumed, read a chunk and OR it, shifted to its position,
    into the [uint64_t] accumulator; succeed once [max_payload] bits are
    consumed, else read a signal bit: 0 ends with success, 1 continues.  A
    raw read that returns fewer bits than requested fails ([None]). *)
Fixpoint ReadVariableWidth_loop (fuel : nat) (s : BitStream) (val : Z)
  (payload_read max_payload chunk_length : nat) : option (Z * BitStream) :=
  match fuel with
  | O => None
  | S fuel' =>
      let '(num_read, bits, s) := StreamReadBits s chunk_length in
      if negb (num_read =? chunk_length)%nat then None
      else
        let val := u64 (Z.lor val (Z.shiftl bits (Z.of_nat payload_read))) in
        let payload_read := (payload_read + chunk_length)%nat in
        if (max_payload <=? payload_read)%nat then Some (val, s)
        else
          let '(num_read, bit, s) := StreamReadBits s 1 in
          if negb (num_read =? 1)%nat then None
          else if bit =? 0 then Some (val, s)
          else ReadVariableWidth_loop fuel' s val payload_read max_payload
                 chunk_length
  end.

Definition ReadVariableWidthInternal (s : BitStream)
  (chunk_length max_payload : nat) : option (Z * BitStream) :=
  ReadVariableWidth_loop max_payload s 0 0 max_payload chunk_length.

(** [WriteVariableWidthU<W>(val, chunk_length)] for [W] in 8, 16, 32, 64:
    [val] has the [W]-bit unsigned type. *)
Definition WriteVariableWidthU (W : nat) (s : BitStream) (val : Z)
  (chunk_length : nat) : BitStream :=
  WriteVariableWidthInternal s (uw (Z.of_nat W) val) chunk_length W.

(** [ReadVariableWidthU<W>(&val, chunk_length)]: [None] for [false], else
    the value read (cast to the [W]-bit type) and the rest of the stream. *)
Definition ReadVariableWidthU (W : nat) (s : BitStream) (chunk_length : nat)
  : option (Z * BitStream) :=
  r <- ReadVariableWidthInternal s chunk_length W ;;
  Some (uw (Z.of_nat W) (fst r), snd r).

(** Conversion to a signed [W]-bit type. *)
Definition iw (W : Z) (z : Z) : Z :=
  (z + 2 ^ (W - 1)) mod 2 ^ W - 2 ^ (W - 1).

(** Modelled from the spec: the signed variants zigzag-encode with the
    block exponent and write the result as unsigned of the same width;
    [None] where [EncodeZigZag] is undefined. *)
Definition WriteVariableWidthS (W : nat) (s : BitStream) (val : Z)
  (chunk_length : nat) (zigzag_exponent : Z) : option BitStream :=
  u <- EncodeZigZag_block val zigzag_exponent ;;
  Some (WriteVariableWidthU W s u chunk_length).

Definition ReadVariableWidthS (W : nat) (s : BitStream) (chunk_length : nat)
  (zigzag_exponent : Z) : option (Z * BitStream) :=
  r <- ReadVariableWidthU W s chunk_length ;;
  v <- DecodeZigZag_block (fst r) zigzag_exponent ;;
  Some (iw (Z.of_nat W) v, snd r).

(** ** Reader end of stream *)

(** [BitReaderInterface::OnlyZeroesLeft]: the default delegates to
    [ReachedEnd]. *)
Definition BitReaderInterface_OnlyZeroesLeft {R : Type}
  (ReachedEnd : R -> bool) (r : R) : bool :=
  ReachedEnd r.

(** Modelled from the spec (4.5): a [BitReaderWord64] holds its words and
    the position of the next bit; bit [p] of the stream is bit [p mod 64]
    of word [p / 64]. *)
Record BitReaderWord64 := mkBitReaderWord64 {
  reader_buffer_ : list Z;
  pos_ : nat
}.

Definition capacity (r : BitReaderWord64) : nat :=
  (64 * List.length (reader_buffer_ r))%nat.

Definition bit_at (r : BitReaderWord64) (p : nat) : bool :=
  Z.testbit (nth (p / 64) (reader_buffer_ r) 0) (Z.of_nat (p mod 64)).

(** Modelled from the spec: [ReachedEnd] is [position >= capacity]. *)
Definition ReachedEnd (r : BitReaderWord64) : bool :=
  (capacity r <=? pos_ r)%nat.

(** Modelled from the spec: [BitReaderWord64::OnlyZeroesLeft] holds at the
    end and when all the bits left to read are zero. *)
Definition BitReaderWord64_OnlyZeroesLeft (r : BitReaderWord64) : bool :=
  ReachedEnd r
  || forallb (fun p => negb (bit_at r p))
       (seq (pos_ r) (capacity r - pos_ r)).

(** * Proofs *)

(** ** Fixed-width arithmetic *)

Lemma pow2_64 : 2 ^ 64 = 18446744073709551616.
Proof. reflexivity. Qed.

Lemma pow2_63 : 2 ^ 63 = 9223372036854775808.
Proof. reflexivity. Qed.

Ltac zarith :=
  unfold u64, uw, i64, is_u64, is_i64 in *;
  rewrite ?pow2_64, ?pow2_63 in *;
  Z.div_mod_to_equations; lia.

Lemma uw_small w z : 0 <= z < 2 ^ w -> uw w z = z.
Proof. intros; unfold uw; apply Z.mod_small; lia. Qed.

Lemma u64_small z : 0 <= z < 2 ^ 64 -> u64 z = z.
Proof. apply uw_small. Qed.

Lemma i64_small z : is_i64 z -> i64 z = z.
Proof. intros; zarith. Qed.



(** ** [GetLowerBits] *)

Lemma GetLowerBits_full w x : GetLowerBits w x w = Some x.
Proof. unfold GetLowerBits. now rewrite Z.eqb_refl. Qed.

Lemma GetLowerBits_lower w x n :
  0 <= n < w -> GetLowerBits w x n = Some (Z.land x (Z.ones n)).
Proof.
  intros Hn. unfold GetLowerBits, shl_checked, promoted_width.
  destruct (Z.eqb_spec w n); [lia|].
  assert (Hc : (0 <=? n) && (n <? Z.max w 32) = true)
    by (apply andb_true_intro; split; [apply Z.leb_le | apply Z.ltb_lt]; lia).
  rewrite Hc, Z.shiftl_1_l.
  assert (2 ^ n < 2 ^ Z.max w 32) by (apply Z.pow_lt_mono_r; lia).
  assert (2 ^ n < 2 ^ w) by (apply Z.pow_lt_mono_r; lia).
  assert (0 < 2 ^ n) by (apply Z.pow_pos_nonneg; lia).
  rewrite (uw_small (Z.max w 32) (2 ^ n)) by lia.
  rewrite (uw_small w (2 ^ n - 1)) by lia.
  now rewrite Z.ones_equiv.
Qed.


(** ** Arithmetic reading of the zigzag codecs *)

(** The orderings listed in the comments of [bit_stream.h]. *)
Example EncodeZigZag_examples :
  map EncodeZigZag [0; -1; 1; -2; 2] = [0; 1; 2; 3; 4].
Proof. reflexivity. Qed.

Example EncodeZigZag_block_1 :
  map (fun v => EncodeZigZag_block v 1) [0; 1; -1; -2; 2; 3; -3; -4]
  = map Some [0; 1; 2; 3; 4; 5; 6; 7].
Proof. reflexivity. Qed.

Example EncodeZigZag_block_2 :
  map (fun v => EncodeZigZag_block v 2) [0; 1; 2; 3; -1; -2; -3; -4; 4]
  = map Some [0; 1; 2; 3; 4; 5; 6; 7; 8].
Proof. reflexivity. Qed.

Example DecodeZigZag_min :
  DecodeZigZag (2 ^ 64 - 1) = - 2 ^ 63 /\ EncodeZigZag (- 2 ^ 63) = 2 ^ 64 - 1.
Proof. split; reflexivity. Qed.










(** ** C2: the zigzag codecs are inverse to each other *)



(** ** C4: the block zigzag codec computes the specification's formulas *)



(** ** C9: block exponent zero is the plain zigzag codec *)



(** ** C5: [GetLowerBits] *)

(** C5: for a type [T] of [w] bits ([w] one of 8, 16, 32, 64), a value [x]
    of [T] and [n <= w], [GetLowerBits] is defined (it performs no shift
    by the width of the shifted operand), returns [x] itself when
    [n = w], and otherwise keeps exactly the [n] least-significant bits. *)
Theorem GetLowerBits_correct (w x n : Z) :
  In w [8; 16; 32; 64] -> 0 <= x < 2 ^ w -> 0 <= n <= w ->
  exists r, GetLowerBits w x n = Some r /\
    (n = w -> r = x) /\
    (forall i, 0 <= i -> Z.testbit r i = (i <? n) && Z.testbit x i).
Proof.
  intros Hw Hx Hn.
  assert (Hw0 : 0 < w) by (simpl in Hw; lia).
  destruct (Z.eq_dec n w) as [->|Hne].
  - exists x. rewrite GetLowerBits_full. split; [reflexivity | split; [auto|]].
    intros i Hi. destruct (Z.ltb_spec i w); [reflexivity|].
    rewrite <- (Z.mod_small x (2 ^ w)) by lia.
    rewrite Z.mod_pow2_bits_high by lia. reflexivity.
  - exists (Z.land x (Z.ones n)).
    rewrite GetLowerBits_lower by lia.
    split; [reflexivity | split; [intros; lia|]].
    intros i Hi. rewrite Z.land_spec, Z.testbit_ones_nonneg by lia.
    apply andb_comm.
Qed.

Lemma GetLowerBits_correct_witness :
  (In 8 [8; 16; 32; 64] /\ 0 <= 181 < 2 ^ 8 /\ 0 <= 3 <= 8) /\
  exists r, GetLowerBits 8 181 3 = Some r /\
    (3 = 8 -> r = 181) /\
    (forall i, 0 <= i -> Z.testbit r i = (i <? 3) && Z.testbit 181 i).
Proof.
  split; [split; [simpl; auto | lia]|].
  apply GetLowerBits_correct; [simpl; auto | lia | lia].
Defined.

(** ** C7: [PadToWord] *)

Example PadToWord_101 :
  PadToWord 8 (list_ascii_of_string "101") = list_ascii_of_string "10100000".
Proof. reflexivity. Qed.

(** C7: for every [N >= 1] and string [s], [PadToWord N s] is [s] followed
    by fewer than [N] characters ['0'], and its length is a multiple of [N];
    [PadToWord 8 "101"] is ["10100000"]. *)
Theorem PadToWord_appends_zeros (N : nat) (s : std_string) :
  (1 <= N)%nat ->
  (exists k, PadToWord N s = s ++ repeat "0"%char k /\ (k < N)%nat /\
             (List.length (PadToWord N s) mod N = 0)%nat) /\
  PadToWord 8 (list_ascii_of_string "101") = list_ascii_of_string "10100000".
Proof.
  intros HN. split; [|reflexivity].
  unfold PadToWord.
  pose proof (Nat.mod_upper_bound (List.length s) N ltac:(lia)) as Ht.
  pose proof (Nat.div_mod_eq (List.length s) N) as Hdm.
  destruct (Nat.eqb_spec (List.length s mod N) 0) as [E|E]; cbn [negb].
  - exists 0%nat. rewrite app_nil_r. split; [reflexivity | split; lia].
  - exists (N - List.length s mod N)%nat. split; [reflexivity | split; [lia|]].
    rewrite length_app, repeat_length.
    replace (List.length s + (N - List.length s mod N))%nat
      with ((List.length s / N + 1) * N)%nat by lia.
    apply Nat.Div0.mod_mul.
Qed.

Lemma PadToWord_appends_zeros_witness :
  (1 <= 8)%nat /\
  (exists k, PadToWord 8 (list_ascii_of_string "0110")
               = list_ascii_of_string "0110" ++ repeat "0"%char k /\ (k < 8)%nat /\
             (List.length (PadToWord 8 (list_ascii_of_string "0110")) mod 8 = 0)%nat) /\
  PadToWord 8 (list_ascii_of_string "101") = list_ascii_of_string "10100000".
Proof. split; [lia|]. apply PadToWord_appends_zeros. lia. Defined.

(** ** C8: [NumBitsToNumWords] and the byte size of a writer *)

Example WriteBits_two_words :
  (w1 <- WriteBits BitWriterWord64_new 5 3 ;;
   w2 <- WriteBits w1 (2 ^ 64 - 1) 64 ;;
   Some (buffer_ w2, end_ w2, GetDataSizeBytes w2, GetDataCopy w2))
  = Some ([2 ^ 64 - 3; 7], 67, 9,
          Some [253; 255; 255; 255; 255; 255; 255; 255; 7]).
Proof. vm_compute. reflexivity. Qed.

Lemma NumBitsToNumWords_ceil N bits :
  1 <= N < 2 ^ 64 -> 0 <= bits -> bits + N - 1 < 2 ^ 64 ->
  NumBitsToNumWords N bits = ceil_div bits N.
Proof.
  intros HN Hb Hov. unfold NumBitsToNumWords, ceil_div.
  rewrite (u64_small (N - 1)) by lia. rewrite u64_small by lia.
  Z.div_mod_to_equations. nia.
Qed.

Lemma length_update_nth {A} i (f : A -> A) l :
  List.length (update_nth i f l) = List.length l.
Proof.
  revert i. induction l as [|x l IH]; intros [|i]; simpl; auto.
Qed.

Lemma length_GetData w : List.length (GetData w) = (8 * List.length (buffer_ w))%nat.
Proof.
  unfold GetData. induction (buffer_ w) as [|x l IH]; cbn [flat_map]; [reflexivity|].
  rewrite length_app, IH. unfold word_bytes. rewrite length_map, length_seq.
  change (List.length (x :: l)) with (S (List.length l)). lia.
Qed.

(** The bit count and the word count after a call of [WriteBits]. *)
Lemma WriteBits_shape w bits n w' :
  WriteBits w bits n = Some w' ->
  0 <= n <= 64 /\ end_ w' = u64 (end_ w + n) /\
  Nat.le (Z.to_nat ((end_ w + n + 63) / 64)) (List.length (buffer_ w')).
Proof.
  unfold WriteBits.
  destruct (negb _) eqn:Hn; [discriminate|].
  apply negb_false_iff, andb_prop in Hn as [Hn1 Hn2].
  apply Z.leb_le in Hn1. apply Z.leb_le in Hn2.
  destruct (GetLowerBits 64 bits n); [|discriminate].
  intros Hw. cbv zeta in Hw.
  apply (f_equal (fun o => match o with Some x => x | None => w' end)) in Hw.
  cbv beta iota in Hw. subst w'. cbn [end_ buffer_].
  split; [lia | split; [reflexivity|]].
  destruct (64 <? end_ w mod 64 + n);
    rewrite ?length_update_nth, length_app, repeat_length; lia.
Qed.

(** Every reachable writer has a non-negative bit count covered by its
    word array. *)
Lemma writer_reachable_inv w :
  writer_reachable w ->
  0 <= end_ w /\ end_ w <= 64 * Z.of_nat (List.length (buffer_ w)).
Proof.
  induction 1 as [|w bits n w' Hr [IH1 IH2] Hw].
  - simpl. lia.
  - apply WriteBits_shape in Hw as (Hn & He & Hl).
    rewrite He.
    split; [unfold u64, uw; apply Z.mod_pos_bound; lia|].
    assert (Hu : u64 (end_ w + n) <= end_ w + n)
      by (unfold u64, uw; apply Z.mod_le; lia).
    assert (H64 : end_ w + n <= 64 * ((end_ w + n + 63) / 64))
      by (Z.div_mod_to_equations; lia).
    apply Nat2Z.inj_le in Hl. rewrite Z2Nat.id in Hl by (apply Z.div_pos; lia).
    lia.
Qed.

(** C8, where the code meets it: for [N >= 1] and a bit count [bits]
    whose sum with [N - 1] does not overflow [size_t],
    [NumBitsToNumWords N bits] is [ceil(bits / N)]; for every writer with
    such a bit count [b] (that is, [b + 7 < 2^64]), [GetDataSizeBytes] is
    [ceil(b / 8)] and [GetDataCopy] copies exactly that many bytes, all
    inside the word array. *)
Theorem NumBitsToNumWords_ceil_no_overflow (N bits : Z) (w : BitWriterWord64) :
  1 <= N < 2 ^ 64 -> 0 <= bits -> bits + N - 1 < 2 ^ 64 ->
  writer_reachable w -> GetNumBits w + 7 < 2 ^ 64 ->
  NumBitsToNumWords N bits = ceil_div bits N /\
  GetDataSizeBytes w = ceil_div (GetNumBits w) 8 /\
  exists bytes, GetDataCopy w = Some bytes /\
                Z.of_nat (List.length bytes) = ceil_div (GetNumBits w) 8.
Proof.
  intros HN Hb Hov Hr Hw.
  destruct (writer_reachable_inv w Hr) as [H0 Hlen].
  assert (Hs : GetDataSizeBytes w = ceil_div (GetNumBits w) 8)
    by (apply NumBitsToNumWords_ceil; unfold GetNumBits in *; lia).
  split; [apply NumBitsToNumWords_ceil; lia|]. split; [exact Hs|].
  unfold GetDataCopy. rewrite Hs, length_GetData.
  unfold GetNumBits, ceil_div in *.
  assert (Hc : 0 <= - (- end_ w / 8) <= 8 * Z.of_nat (List.length (buffer_ w)))
    by (Z.div_mod_to_equations; lia).
  rewrite Nat2Z.inj_mul.
  destruct (Z.leb_spec (- (- end_ w / 8)) (Z.of_nat 8 * Z.of_nat (List.length (buffer_ w))));
    [|lia].
  eexists. split; [reflexivity|].
  rewrite length_firstn, length_GetData, Nat2Z.inj_min, Z2Nat.id, Nat2Z.inj_mul by lia.
  lia.
Qed.

Lemma NumBitsToNumWords_ceil_no_overflow_witness :
  let w := {| buffer_ := [2 ^ 64 - 3; 7]; end_ := 67 |} in
  (1 <= 8 < 2 ^ 64 /\ 0 <= 67 /\ 67 + 8 - 1 < 2 ^ 64 /\
   writer_reachable w /\ GetNumBits w + 7 < 2 ^ 64) /\
  NumBitsToNumWords 8 67 = ceil_div 67 8 /\
  GetDataSizeBytes w = ceil_div (GetNumBits w) 8 /\
  exists bytes, GetDataCopy w = Some bytes /\
    Z.of_nat (List.length bytes) = ceil_div (GetNumBits w) 8.
Proof.
  intros w.
  assert (Hr : writer_reachable w).
  { apply (reach_write {| buffer_ := [5]; end_ := 3 |} (2 ^ 64 - 1) 64).
    - apply (reach_write BitWriterWord64_new 5 3); [apply reach_new|].
      vm_compute. reflexivity.
    - vm_compute. reflexivity. }
  assert (Hb : GetNumBits w + 7 < 2 ^ 64) by (vm_compute; reflexivity).
  split; [rewrite pow2_64; repeat split; try lia; assumption|].
  apply NumBitsToNumWords_ceil_no_overflow;
    [rewrite pow2_64; lia | lia | rewrite pow2_64; lia | exact Hr | exact Hb].
Defined.

(** C8 (code bug): with [bits = 2^64 - 1], a valid [size_t] argument, the
    sum [bits + 7] wraps around and [NumBitsToNumWords<8>] returns [0]
    instead of the [ceil(bits / 8) = 2^61] bytes needed to store [bits]
    bits. *)
Lemma NumBitsToNumWords_overflow :
  0 <= 2 ^ 64 - 1 < 2 ^ 64 /\
  NumBitsToNumWords 8 (2 ^ 64 - 1) = 0 /\ ceil_div (2 ^ 64 - 1) 8 = 2 ^ 61.
Proof. vm_compute. repeat split; discriminate. Qed.

(** ** C10: [BufferToStream] and [StreamToBuffer] *)

Example BufferToStream_bytes :
  BufferToStream 8 [1; 128] = list_ascii_of_string "1000000000000001".
Proof. reflexivity. Qed.

Example StreamToBuffer_examples :
  StreamToBuffer 8 (list_ascii_of_string "1000000000000001") = Some [1; 128] /\
  StreamToBuffer 8 (list_ascii_of_string "1010") = Some [5] /\
  StreamToBuffer 16 (BufferToStream 16 [65535; 0; 4660]) = Some [65535; 0; 4660] /\
  StreamToBuffer 8 (list_ascii_of_string "10a") = None.
Proof. vm_compute. repeat split. Qed.

Lemma length_bitset_to_string N x : List.length (bitset_to_string N x) = N.
Proof. unfold bitset_to_string. now rewrite length_map, length_rev, length_seq. Qed.

(** Reading back the characters of [bitset_to_string N x], most
    significant first, after a prefix of value [a]. *)
Lemma bitset_to_string_value N x a :
  fold_left bitset_digit (bitset_to_string N x) (Some a)
  = Some (a * 2 ^ Z.of_nat N + x mod 2 ^ Z.of_nat N).
Proof.
  revert a. induction N as [|N IH]; intros a.
  - cbn. rewrite Z.mod_1_r. f_equal. lia.
  - unfold bitset_to_string. rewrite seq_S, rev_app_distr.
    change (rev [0 + N]%nat) with [N].
    cbn [app map fold_left].
    replace (bitset_digit (Some a)
               (if Z.testbit x (Z.of_nat N) then "1"%char else "0"%char))
      with (Some (2 * a + Z.b2z (Z.testbit x (Z.of_nat N))))
      by (destruct (Z.testbit x (Z.of_nat N)); simpl; f_equal; lia).
    fold (bitset_to_string N x). rewrite IH. f_equal.
    assert (HP : 0 < 2 ^ Z.of_nat N) by (apply Z.pow_pos_nonneg; lia).
    rewrite Nat2Z.inj_succ, Z.pow_succ_r, (Z.mul_comm 2 (2 ^ Z.of_nat N)) by lia.
    assert (E : x mod (2 ^ Z.of_nat N * 2)
                = x mod 2 ^ Z.of_nat N + 2 ^ Z.of_nat N * ((x / 2 ^ Z.of_nat N) mod 2))
      by (rewrite !Z.mod_eq, Z.div_div by lia; ring).
    rewrite E, <- Z.testbit_spec' by lia. ring.
Qed.

Lemma rev_concat {A} (L : list (list A)) :
  rev (List.concat L) = List.concat (rev (map (@rev A) L)).
Proof.
  induction L as [|x L IH]; [reflexivity|].
  cbn [List.concat map rev]. rewrite rev_app_distr, IH, concat_app.
  cbn [List.concat]. now rewrite app_nil_r.
Qed.

Lemma rev_BufferToStream w b :
  rev (BufferToStream w b) = List.concat (map (bitset_to_string w) (rev b)).
Proof.
  unfold BufferToStream. rewrite rev_concat, map_map, map_rev.
  f_equal. f_equal. apply map_ext. intros x. apply rev_involutive.
Qed.

Lemma length_concat_bitsets w b :
  List.length (List.concat (map (bitset_to_string w) b)) = (w * List.length b)%nat.
Proof.
  induction b as [|x b IH]; cbn [List.concat map List.length]; [lia|].
  rewrite length_app, IH, length_bitset_to_string. cbn [List.length]. lia.
Qed.

Lemma length_BufferToStream w b :
  List.length (BufferToStream w b) = (w * List.length b)%nat.
Proof.
  rewrite <- length_rev, rev_BufferToStream, length_concat_bitsets, length_rev.
  reflexivity.
Qed.

(** The word read at the boundary between a prefix [P] and the characters
    of [x]. *)
Lemma bitset_from_string_at w P x extra :
  bitset_from_string w (P ++ bitset_to_string w x ++ extra) (List.length P) w
  = Some (x mod 2 ^ Z.of_nat w).
Proof.
  unfold bitset_from_string.
  replace (Nat.ltb _ _) with false
    by (symmetry; apply Nat.ltb_ge; rewrite length_app; lia).
  rewrite skipn_app, skipn_all2, Nat.sub_diag by lia. cbn [skipn app].
  rewrite Nat.min_id, firstn_app, length_bitset_to_string, Nat.sub_diag.
  rewrite <- (length_bitset_to_string w x) at 1.
  rewrite firstn_all. cbn [firstn]. rewrite app_nil_r.
  rewrite bitset_to_string_value, Z.mul_0_l, Z.add_0_l. reflexivity.
Qed.

(** The loop of [StreamToBuffer] over the reversed stream of [b], followed
    by any characters [extra], starting at the index of the first word of
    [b], gives back [b]. *)
Lemma StreamToBuffer_loop_words w b extra fuel :
  (1 <= w <= 64)%nat -> (List.length b < fuel)%nat ->
  Forall (fun x => 0 <= x < 2 ^ Z.of_nat w) b ->
  Z.of_nat w * Z.of_nat (List.length b) < 2 ^ 31 ->
  StreamToBuffer_loop fuel w (Z.of_nat w)
    (List.concat (map (bitset_to_string w) (rev b)) ++ extra)
    (Z.of_nat w * Z.of_nat (List.length b) - Z.of_nat w) = Some b.
Proof.
  revert extra fuel.
  induction b as [|x b IH]; intros extra fuel Hw Hf Hb Hl;
    (destruct fuel as [|fuel]; [cbn [List.length] in Hf; lia|]).
  - cbn [StreamToBuffer_loop].
    replace (0 <=? _) with false
      by (symmetry; apply Z.leb_gt; cbn [List.length]; lia).
    reflexivity.
  - inversion Hb as [|? ? Hx Hb']; subst.
    cbn [List.length] in Hf, Hl. rewrite Nat2Z.inj_succ in Hl.
    cbn [rev]. rewrite map_app, concat_app. cbn [map List.concat].
    rewrite app_nil_r, <- app_assoc.
    assert (HP : List.length (List.concat (map (bitset_to_string w) (rev b)))
                 = (w * List.length b)%nat)
      by (rewrite length_concat_bitsets, length_rev; reflexivity).
    remember (List.concat (map (bitset_to_string w) (rev b))) as P eqn:EP.
    cbn [StreamToBuffer_loop List.length].
    replace (Z.of_nat w * Z.of_nat (S (List.length b)) - Z.of_nat w)
      with (Z.of_nat (List.length P)) by (rewrite HP; lia).
    replace (0 <=? Z.of_nat (List.length P)) with true
      by (symmetry; apply Z.leb_le; lia).
    rewrite !Nat2Z.id, bitset_from_string_at.
    unfold int_checked.
    replace ((- 2 ^ 31 <=? Z.of_nat (List.length P) - Z.of_nat w)
             && (Z.of_nat (List.length P) - Z.of_nat w <? 2 ^ 31)) with true
      by (symmetry; apply andb_true_intro;
          split; [apply Z.leb_le | apply Z.ltb_lt]; rewrite HP;
          change (2 ^ 31) with 2147483648 in *; lia).
    replace (Z.of_nat (List.length P) - Z.of_nat w)
      with (Z.of_nat w * Z.of_nat (List.length b) - Z.of_nat w) by (rewrite HP; lia).
    subst P. rewrite IH by (auto; lia).
    f_equal. f_equal. unfold uw. rewrite Z.mod_mod, Z.mod_small; [reflexivity | lia |].
    apply Z.pow_nonzero; lia.
Qed.

(** C10, where the code meets it: for a word type of [w] bits ([w] one of
    8, 16, 32, 64) and a buffer [b] of words of that type whose stream is
    shorter than [2^31] characters (the length [StreamToBuffer] holds in an
    [int]), [StreamToBuffer] applied to [BufferToStream b] gives back
    [b]. *)
Theorem StreamToBuffer_BufferToStream (w : nat) (b : list Z) :
  In w [8; 16; 32; 64]%nat ->
  Forall (fun x => 0 <= x < 2 ^ Z.of_nat w) b ->
  Z.of_nat (List.length (BufferToStream w b)) < 2 ^ 31 ->
  StreamToBuffer w (BufferToStream w b) = Some b.
Proof.
  intros Hw Hb Hl.
  assert (Hw' : (1 <= w <= 64)%nat) by (simpl in Hw; lia).
  rewrite length_BufferToStream, Nat2Z.inj_mul in Hl.
  unfold StreamToBuffer. cbv zeta.
  rewrite length_rev, length_BufferToStream, rev_BufferToStream.
  assert (Hi : i32 (Z.of_nat w) = Z.of_nat w)
    by (unfold i32; rewrite Z.mod_small; [lia|]; change (2 ^ 32) with 4294967296;
        change (2 ^ 31) with 2147483648; lia).
  assert (Hi' : i32 (Z.of_nat (w * List.length b)) = Z.of_nat w * Z.of_nat (List.length b))
    by (unfold i32; rewrite Nat2Z.inj_mul, Z.mod_small; [lia|];
        change (2 ^ 32) with 4294967296; change (2 ^ 31) with 2147483648 in *; lia).
  rewrite Hi, Hi'.
  unfold int_checked.
  replace ((- 2 ^ 31 <=? Z.of_nat w * Z.of_nat (List.length b) - Z.of_nat w)
           && (Z.of_nat w * Z.of_nat (List.length b) - Z.of_nat w <? 2 ^ 31)) with true
    by (symmetry; apply andb_true_intro; split; [apply Z.leb_le | apply Z.ltb_lt];
        change (2 ^ 31) with 2147483648 in *; lia).
  rewrite <- (app_nil_r (List.concat _)).
  rewrite StreamToBuffer_loop_words by (auto; nia).
  rewrite Nat2Z.id, Nat.mul_comm, Nat.Div0.mod_mul. reflexivity.
Qed.

Lemma StreamToBuffer_BufferToStream_witness :
  (In 16%nat [8; 16; 32; 64]%nat /\
   Forall (fun x => 0 <= x < 2 ^ Z.of_nat 16) [65535; 0; 4660] /\
   Z.of_nat (List.length (BufferToStream 16 [65535; 0; 4660])) < 2 ^ 31) /\
  StreamToBuffer 16 (BufferToStream 16 [65535; 0; 4660]) = Some [65535; 0; 4660].
Proof.
  assert (H : In 16%nat [8; 16; 32; 64]%nat /\
              Forall (fun x => 0 <= x < 2 ^ Z.of_nat 16) [65535; 0; 4660] /\
              Z.of_nat (List.length (BufferToStream 16 [65535; 0; 4660])) < 2 ^ 31).
  { split; [simpl; auto|]. split; [repeat constructor; cbn; lia|].
    vm_compute. reflexivity. }
  split; [exact H|].
  destruct H as (H1 & H2 & H3). exact (StreamToBuffer_BufferToStream _ _ H1 H2 H3).
Defined.

(** A buffer of [2^28 + 1] bytes has a stream of [2^31 + 8] characters,
    whose [static_cast<int>] length is [-2^31 + 8]: [StreamToBuffer] starts
    its loop at index [-2^31], reads no word, and returns an empty buffer. *)
Lemma StreamToBuffer_long_stream (b : list Z) :
  Z.of_nat (List.length b) = 2 ^ 28 + 1 ->
  StreamToBuffer 8 (BufferToStream 8 b) = Some [].
Proof.
  intros Hb. unfold StreamToBuffer. cbv zeta.
  rewrite length_rev, length_BufferToStream.
  rewrite (Nat2Z.inj_mul 8), Hb.
  assert (E1 : i32 (Z.of_nat 8) = 8) by (vm_compute; reflexivity).
  assert (E2 : i32 (Z.of_nat 8 * (2 ^ 28 + 1)) = -2147483640) by (vm_compute; reflexivity).
  assert (E3 : int_checked (-2147483640 - 8) = Some (-2147483648)) by (vm_compute; reflexivity).
  rewrite E1, E2, E3.
  cbn [StreamToBuffer_loop].
  assert (E4 : (0 <=? -2147483648) = false) by reflexivity.
  rewrite E4.
  assert (E5 : Z.to_nat 8 = 8%nat) by reflexivity.
  rewrite E5, Nat.mul_comm, Nat.Div0.mod_mul. reflexivity.
Qed.

(** C10 (code bug): a buffer of [2^28 + 1] zero bytes does not come back
    from [StreamToBuffer (BufferToStream b)]: the [static_cast<int>] of the
    stream length wraps and the result is empty. *)
Lemma StreamToBuffer_BufferToStream_int_overflow :
  Forall (fun x => 0 <= x < 2 ^ 8) (repeat 0 (Z.to_nat (2 ^ 28 + 1))) /\
  StreamToBuffer 8 (BufferToStream 8 (repeat 0 (Z.to_nat (2 ^ 28 + 1)))) = Some [] /\
  Some [] <> Some (repeat 0 (Z.to_nat (2 ^ 28 + 1))).
Proof.
  assert (Hl : Z.of_nat (List.length (repeat 0 (Z.to_nat (2 ^ 28 + 1)))) = 2 ^ 28 + 1)
    by (rewrite repeat_length, Z2Nat.id; lia).
  split; [|split].
  - apply Forall_forall. intros x Hx. apply repeat_spec in Hx. subst. lia.
  - apply StreamToBuffer_long_stream. exact Hl.
  - intros H. apply (f_equal (fun o => match o with Some l => List.length l | None => O end)) in H.
    cbv beta iota in H. rewrite repeat_length in H.
    apply (f_equal Z.of_nat) in H. rewrite Z2Nat.id in H by lia.
    change (Z.of_nat (List.length (@nil Z))) with 0 in H. lia.
Qed.

(** ** Variable-width chunk encoding *)

(** Example of the header's comment: 255 with chunk length 4, as a
    [uint64_t], is written as 1111 1 1111 0. *)
Example WriteVariableWidthU64_255 :
  WriteVariableWidthU 64 [] 255 4 =
  [true; true; true; true; true; true; true; true; true; false].
Proof. vm_compute. reflexivity. Qed.

Lemma length_bits_of x n : List.length (bits_of x n) = n.
Proof. revert x; induction n as [|n IH]; intros x; cbn; auto. Qed.

Lemma value_of_bits_of x n : value_of (bits_of x n) = x mod 2 ^ Z.of_nat n.
Proof.
  revert x; induction n as [|n IH]; intros x.
  - cbn. symmetry. apply Z.mod_1_r.
  - cbn [bits_of value_of]. rewrite IH, Nat2Z.inj_succ, Z.pow_succ_r by lia.
    set (P := 2 ^ Z.of_nat n).
    assert (HP : 0 < P) by (apply Z.pow_pos_nonneg; lia).
    set (q := Z.div2 x). set (b := Z.b2z (Z.odd x)).
    assert (Hx : x = 2 * q + b) by apply Z.div2_odd.
    assert (Hb : 0 <= b <= 1) by (unfold b; destruct (Z.odd x); cbn; lia).
    apply (Z.mod_unique x (2 * P) (q / P)).
    + left. pose proof (Z.mod_pos_bound q P HP). lia.
    + rewrite Hx at 1. rewrite (Z.div_mod q P) at 1 by lia. ring.
Qed.

Lemma StreamReadBits_app l r n :
  List.length l = n -> StreamReadBits (l ++ r) n = (n, value_of l, r).
Proof.
  intros <-. unfold StreamReadBits.
  rewrite firstn_app, skipn_app, Nat.sub_diag, firstn_O, skipn_O, app_nil_r,
    firstn_all, skipn_all. reflexivity.
Qed.

Lemma StreamReadBits_short s n :
  (List.length s < n)%nat ->
  exists v r, StreamReadBits s n = (List.length s, v, r).
Proof.
  intros H. unfold StreamReadBits. rewrite length_firstn.
  replace (Nat.min n (List.length s)) with (List.length s) by lia. eauto.
Qed.

Lemma app_prefix {A} (p q l t : list A) :
  p ++ q = l ++ t -> (List.length l <= List.length p)%nat ->
  exists p', p = l ++ p' /\ p' ++ q = t.
Proof.
  intros H Hl. apply app_eq_app in H as [m [[-> ->] | [-> ->]]].
  - eauto.
  - rewrite length_app in Hl. destruct m; cbn in Hl; [|lia].
    exists []. rewrite !app_nil_r. auto.
Qed.

Lemma WriteVariableWidth_loop_app f s val e W C :
  WriteVariableWidth_loop f s val e W C = s ++ WriteVariableWidth_loop f [] val e W C.
Proof.
  revert s val e. induction f as [|f IH]; intros s val e.
  - cbn. symmetry. apply app_nil_r.
  - cbn [WriteVariableWidth_loop]. unfold StreamWriteBits.
    destruct (W <=? e + C)%nat; [reflexivity|].
    destruct (Z.shiftr val (Z.of_nat C) =? 0); [rewrite app_assoc; reflexivity|].
    rewrite IH. symmetry. rewrite IH. cbn [app]. rewrite !app_assoc. reflexivity.
Qed.

Lemma WriteVariableWidth_loop_step f val e W C :
  WriteVariableWidth_loop (S f) [] val e W C =
  bits_of val C ++
  (if (W <=? e + C)%nat then []
   else if Z.shiftr val (Z.of_nat C) =? 0 then [false]
   else true :: WriteVariableWidth_loop f [] (Z.shiftr val (Z.of_nat C)) (e + C) W C).
Proof.
  cbn [WriteVariableWidth_loop]. unfold StreamWriteBits. cbn [app].
  destruct (W <=? e + C)%nat; [symmetry; apply app_nil_r|].
  destruct (Z.shiftr val (Z.of_nat C) =? 0); [reflexivity|].
  rewrite WriteVariableWidth_loop_app, <- app_assoc. reflexivity.
Qed.

(** ORing the chunk at bit [e] into the bits of [v] below [e] gives the
    bits of [v] below [e + C]. *)
Lemma chunk_acc v e C :
  0 <= e -> 0 <= C ->
  Z.lor (v mod 2 ^ e) (Z.shiftl (Z.shiftr v e mod 2 ^ C) e) = v mod 2 ^ (e + C).
Proof.
  intros He HC. apply Z.bits_inj'. intros i Hi.
  rewrite Z.lor_spec.
  destruct (Z.lt_ge_cases i e).
  - rewrite Z.shiftl_spec_low, !Z.mod_pow2_bits_low by lia. apply orb_false_r.
  - rewrite Z.mod_pow2_bits_high, Z.shiftl_spec_high by lia. cbn [orb].
    destruct (Z.lt_ge_cases i (e + C)).
    + rewrite !Z.mod_pow2_bits_low, Z.shiftr_spec by lia. f_equal. lia.
    + rewrite !Z.mod_pow2_bits_high by lia. reflexivity.
Qed.

Lemma ReadVariableWidth_loop_roundtrip W C v f e rest :
  (1 <= C)%nat -> (W <= 64)%nat -> 0 <= v < 2 ^ Z.of_nat W ->
  (e < W)%nat -> (W <= e + f * C)%nat ->
  ReadVariableWidth_loop f
    (WriteVariableWidth_loop f [] (Z.shiftr v (Z.of_nat e)) e W C ++ rest)
    (v mod 2 ^ Z.of_nat e) e W C = Some (v, rest).
Proof.
  intros HC HW Hv. revert e.
  induction f as [|f IH]; intros e He Hf; [lia|].
  rewrite WriteVariableWidth_loop_step, <- app_assoc.
  cbn [ReadVariableWidth_loop].
  rewrite StreamReadBits_app by apply length_bits_of.
  rewrite Nat.eqb_refl. cbn [negb]. cbv beta iota.
  rewrite value_of_bits_of, chunk_acc by lia.
  rewrite <- Nat2Z.inj_add.
  assert (Hpow : 2 ^ Z.of_nat W <= 2 ^ 64) by (apply Z.pow_le_mono_r; lia).
  assert (Hm : 0 <= v mod 2 ^ Z.of_nat (e + C) <= v)
    by (split; [apply Z.mod_pos_bound | apply Z.mod_le]; try apply Z.pow_pos_nonneg; lia).
  rewrite u64_small by lia.
  rewrite Z.shiftr_shiftr, <- Nat2Z.inj_add by lia.
  destruct (W <=? e + C)%nat eqn:Hc.
  - apply Nat.leb_le in Hc. rewrite Z.mod_small; [reflexivity|].
    split; [lia|]. eapply Z.lt_le_trans; [apply Hv|]. apply Z.pow_le_mono_r; lia.
  - apply Nat.leb_gt in Hc.
    destruct (Z.shiftr v (Z.of_nat (e + C)) =? 0) eqn:Hz.
    + rewrite (StreamReadBits_app [false] rest 1 eq_refl). cbn -[Z.pow Z.modulo].
      rewrite Z.mod_small; [reflexivity|].
      apply Z.eqb_eq in Hz. rewrite Z.shiftr_div_pow2 in Hz by lia.
      apply Z.div_small_iff in Hz; [lia|]. apply Z.pow_nonzero; lia.
    + cbn [app]. change (true :: ?l) with ([true] ++ l).
      rewrite (StreamReadBits_app [true] _ 1 eq_refl).
      cbn [Nat.eqb negb value_of Z.b2z]. cbv beta iota.
      change (1 + 2 * 0 =? 0) with false. cbv beta iota.
      apply IH; lia.
Qed.

(** C1: for a width [W] of 8, 16, 32 or 64 bits, a chunk length [C] in
    [1, 64] and a value [v] of the [W]-bit unsigned type,
    [ReadVariableWidthU<W>] with chunk length [C] over the stream written by
    [WriteVariableWidthU<W>(v, C)], followed by any further bits, succeeds
    with [v] and leaves the reader at those further bits. *)
Theorem variable_width_roundtrip (W C : nat) (v : Z) (rest : BitStream) :
  In W [8; 16; 32; 64]%nat -> (1 <= C <= 64)%nat -> 0 <= v < 2 ^ Z.of_nat W ->
  ReadVariableWidthU W (WriteVariableWidthU W [] v C ++ rest) C = Some (v, rest).
Proof.
  intros HW HC Hv.
  assert (HW' : (1 <= W <= 64)%nat) by (cbn in HW; lia).
  unfold ReadVariableWidthU, WriteVariableWidthU, WriteVariableWidthInternal,
    ReadVariableWidthInternal.
  rewrite (uw_small _ v Hv).
  pose proof (ReadVariableWidth_loop_roundtrip W C v W 0 rest) as H.
  change (Z.of_nat 0) with 0 in H.
  rewrite Z.shiftr_0_r, Z.pow_0_r, Z.mod_1_r in H.
  rewrite H by nia. cbn [fst snd]. rewrite (uw_small _ v Hv). reflexivity.
Qed.

Lemma variable_width_roundtrip_witness :
  (In 8%nat [8; 16; 32; 64]%nat /\ (1 <= 3 <= 64)%nat /\ 0 <= 200 < 2 ^ Z.of_nat 8) /\
  ReadVariableWidthU 8 (WriteVariableWidthU 8 [] 200 3 ++ [true]) 3 = Some (200, [true]).
Proof.
  assert (H : In 8%nat [8; 16; 32; 64]%nat /\ (1 <= 3 <= 64)%nat /\ 0 <= 200 < 2 ^ Z.of_nat 8)
    by (split; [cbn; auto | split; [lia | cbn; lia]]).
  split; [exact H|].
  destruct H as (H1 & H2 & H3). exact (variable_width_roundtrip 8 3 200 [true] H1 H2 H3).
Defined.

Lemma ReadVariableWidth_loop_prefix W C f val e acc p q :
  (1 <= C)%nat -> q <> [] -> p ++ q = WriteVariableWidth_loop f [] val e W C ->
  ReadVariableWidth_loop f p acc e W C = None.
Proof.
  intros HC Hq. revert val e acc p.
  induction f as [|f IH]; intros val e acc p Hp; [reflexivity|].
  rewrite WriteVariableWidth_loop_step in Hp. cbn [ReadVariableWidth_loop].
  destruct (Nat.lt_ge_cases (List.length p) C) as [Hs|Hs].
  - destruct (StreamReadBits_short p C Hs) as (x & r & ->). cbv beta iota.
    replace (List.length p =? C)%nat with false by (symmetry; apply Nat.eqb_neq; lia).
    reflexivity.
  - rewrite <- (length_bits_of val C) in Hs.
    destruct (app_prefix _ _ _ _ Hp Hs) as (p' & -> & Hp').
    rewrite StreamReadBits_app by apply length_bits_of.
    rewrite Nat.eqb_refl. cbv beta iota. cbn [negb].
    destruct (W <=? e + C)%nat.
    + apply app_eq_nil in Hp' as [_ ->]. congruence.
    + destruct p' as [|b p''].
      * cbn -[Z.pow Z.modulo Z.shiftl Z.lor u64]. reflexivity.
      * destruct (Z.shiftr val (Z.of_nat C) =? 0).
        -- cbn in Hp'. injection Hp' as _ Hp'. apply app_eq_nil in Hp' as [_ ->].
           congruence.
        -- cbn [app] in Hp'. injection Hp' as -> Hp'.
           change (true :: p'') with ([true] ++ p'').
           rewrite (StreamReadBits_app [true] _ 1 eq_refl).
           cbn [Nat.eqb negb value_of Z.b2z]. cbv beta iota.
           change (1 + 2 * 0 =? 0) with false. cbv beta iota.
           eapply IH. exact Hp'.
Qed.

Lemma ReadVariableWidthU_prefix W C u p q :
  (1 <= C)%nat -> q <> [] -> p ++ q = WriteVariableWidthU W [] u C ->
  ReadVariableWidthU W p C = None.
Proof.
  intros HC Hq Hp. unfold ReadVariableWidthU, ReadVariableWidthInternal.
  unfold WriteVariableWidthU, WriteVariableWidthInternal in Hp.
  rewrite (ReadVariableWidth_loop_prefix W C W _ 0 0 p q HC Hq Hp). reflexivity.
Qed.

(** C3: a stream that ends before the value written by a variable-width
    write is fully read, that is, a strict prefix [p] of the stream written
    by [WriteVariableWidthU<W>] or [WriteVariableWidthS<W>], makes both the
    unsigned and the signed [ReadVariableWidth] fail ([None]: no value). *)
Theorem ReadVariableWidth_truncated (W C : nat) (u v k : Z) (p q : BitStream) :
  In W [8; 16; 32; 64]%nat -> (1 <= C <= 64)%nat -> q <> [] ->
  (p ++ q = WriteVariableWidthU W [] u C ->
     ReadVariableWidthU W p C = None /\ ReadVariableWidthS W p C k = None) /\
  (WriteVariableWidthS W [] v C k = Some (p ++ q) ->
     ReadVariableWidthU W p C = None /\ ReadVariableWidthS W p C k = None).
Proof.
  intros _ HC Hq.
  assert (HU : forall u, p ++ q = WriteVariableWidthU W [] u C ->
                 ReadVariableWidthU W p C = None /\ ReadVariableWidthS W p C k = None).
  { intros u' Hp. assert (HC' : (1 <= C)%nat) by lia.
    pose proof (ReadVariableWidthU_prefix W C u' p q HC' Hq Hp) as H.
    split; [exact H|]. unfold ReadVariableWidthS. rewrite H. reflexivity. }
  split; [apply HU|].
  unfold WriteVariableWidthS. destruct (EncodeZigZag_block v k) as [u'|]; [|discriminate].
  intros H. injection H as H. apply (HU u'). symmetry. exact H.
Qed.

Lemma ReadVariableWidth_truncated_witness :
  (In 8%nat [8; 16; 32; 64]%nat /\ (1 <= 4 <= 64)%nat /\
   skipn 4 (WriteVariableWidthU 8 [] 255 4) <> []) /\
  ((firstn 4 (WriteVariableWidthU 8 [] 255 4) ++ skipn 4 (WriteVariableWidthU 8 [] 255 4)
      = WriteVariableWidthU 8 [] 255 4 ->
    ReadVariableWidthU 8 (firstn 4 (WriteVariableWidthU 8 [] 255 4)) 4 = None /\
    ReadVariableWidthS 8 (firstn 4 (WriteVariableWidthU 8 [] 255 4)) 4 1 = None) /\
   (WriteVariableWidthS 8 [] (-3) 4 1 =
      Some (firstn 4 (WriteVariableWidthU 8 [] 255 4) ++ skipn 4 (WriteVariableWidthU 8 [] 255 4)) ->
    ReadVariableWidthU 8 (firstn 4 (WriteVariableWidthU 8 [] 255 4)) 4 = None /\
    ReadVariableWidthS 8 (firstn 4 (WriteVariableWidthU 8 [] 255 4)) 4 1 = None)).
Proof.
  assert (H1 : In 8%nat [8; 16; 32; 64]%nat) by (cbn; auto).
  assert (H2 : (1 <= 4 <= 64)%nat) by lia.
  assert (H3 : skipn 4 (WriteVariableWidthU 8 [] 255 4) <> []) by (vm_compute; discriminate).
  split; [split; [exact H1 | split; [exact H2 | exact H3]]|].
  exact (ReadVariableWidth_truncated 8 4 255 (-3) 1 _ _ H1 H2 H3).
Defined.

(** ** Reader end of stream *)

(** C6: for every [BitReaderWord64] state, both its [OnlyZeroesLeft] and
    the default [BitReaderInterface::OnlyZeroesLeft] hold whenever
    [ReachedEnd] holds, both are false while a set bit lies between the
    position and the capacity, and the default is exactly [ReachedEnd]. *)
Theorem OnlyZeroesLeft_sound (r : BitReaderWord64) :
  (ReachedEnd r = true ->
     BitReaderWord64_OnlyZeroesLeft r = true /\
     BitReaderInterface_OnlyZeroesLeft ReachedEnd r = true) /\
  (forall p, (pos_ r <= p < capacity r)%nat -> bit_at r p = true ->
     BitReaderWord64_OnlyZeroesLeft r = false /\
     BitReaderInterface_OnlyZeroesLeft ReachedEnd r = false) /\
  BitReaderInterface_OnlyZeroesLeft ReachedEnd r = ReachedEnd r.
Proof.
  unfold BitReaderWord64_OnlyZeroesLeft, BitReaderInterface_OnlyZeroesLeft.
  split; [|split; [|reflexivity]].
  - intros ->. auto.
  - intros p Hp Hb.
    assert (HE : ReachedEnd r = false)
      by (unfold ReachedEnd; apply Nat.leb_gt; lia).
    rewrite HE. split; [|reflexivity]. cbn [orb].
    destruct (forallb _ _) eqn:Hf; [|reflexivity].
    rewrite forallb_forall in Hf.
    assert (Hin : In p (seq (pos_ r) (capacity r - pos_ r))) by (apply in_seq; lia).
    specialize (Hf p Hin). rewrite Hb in Hf. discriminate.
Qed.

(** * Further properties of [bit_stream.h] *)

(** ** Characters of bitsets *)

Lemma rev_bitset_to_string N x :
  rev (bitset_to_string N x) =
  map (fun i => if Z.testbit x (Z.of_nat i) then "1"%char else "0"%char) (seq 0 N).
Proof. unfold bitset_to_string. now rewrite map_rev, rev_involutive. Qed.

Lemma bitset_to_string_S N x :
  bitset_to_string (S N) x =
  (if Z.testbit x (Z.of_nat N) then "1"%char else "0"%char) :: bitset_to_string N x.
Proof. unfold bitset_to_string. rewrite seq_S, rev_app_distr. reflexivity. Qed.

Lemma bitset_to_string_ext N x y :
  (forall i, (i < N)%nat -> Z.testbit x (Z.of_nat i) = Z.testbit y (Z.of_nat i)) ->
  bitset_to_string N x = bitset_to_string N y.
Proof.
  intros H. unfold bitset_to_string. apply map_ext_in. intros i Hi.
  rewrite <- in_rev, in_seq in Hi.
  rewrite H by lia. reflexivity.
Qed.

(** A value below [2^k] has only zeros above its [k] low characters. *)
Lemma bitset_to_string_zeros m k v :
  0 <= v < 2 ^ Z.of_nat k ->
  bitset_to_string (m + k) v = repeat "0"%char m ++ bitset_to_string k v.
Proof.
  intros Hv. induction m as [|m IH]; [reflexivity|].
  cbn [Nat.add]. rewrite bitset_to_string_S, IH.
  replace (Z.testbit v (Z.of_nat (m + k))) with false; [reflexivity|].
  rewrite <- (Z.mod_small v (2 ^ Z.of_nat k)) by lia.
  symmetry. apply Z.mod_pow2_bits_high. lia.
Qed.

Lemma fold_bitset_digit_None l : fold_left bitset_digit l None = None.
Proof.
  induction l as [|c l IH]; [reflexivity|].
  cbn [fold_left]. change (bitset_digit None c) with (@None Z). exact IH.
Qed.

(** A character other than ['0'] and ['1'] makes the constructor throw. *)
Lemma fold_bitset_digit_bad l a :
  Exists (fun c => c <> "0"%char /\ c <> "1"%char) l ->
  fold_left bitset_digit l a = None.
Proof.
  revert a. induction l as [|c l IH]; intros a H; [inversion H|].
  apply Exists_cons in H as [[H0 H1] | H]; cbn [fold_left].
  - replace (bitset_digit a c) with (@None Z); [apply fold_bitset_digit_None|].
    apply Ascii.eqb_neq in H0, H1.
    destruct a; [unfold bitset_digit; rewrite H0, H1|]; reflexivity.
  - apply IH. exact H.
Qed.

(** Every string of ['0'] and ['1'] is the [to_string()] of a value. *)
Lemma bitset_to_string_of_bits l :
  Forall (fun c => c = "0"%char \/ c = "1"%char) l ->
  exists v, 0 <= v < 2 ^ Z.of_nat (List.length l) /\
            bitset_to_string (List.length l) v = l.
Proof.
  induction l as [|c l IH]; intros H.
  - exists 0. split; [cbn; lia | reflexivity].
  - apply Forall_cons_iff in H as [Hc Hl]. destruct (IH Hl) as (v & Hv & E).
    cbn [List.length]. rewrite Nat2Z.inj_succ, Z.pow_succ_r by lia.
    set (n := List.length l) in *.
    assert (HP : 0 < 2 ^ Z.of_nat n) by (apply Z.pow_pos_nonneg; lia).
    destruct Hc as [-> | ->].
    + exists v. split; [lia|].
      rewrite bitset_to_string_S, E.
      replace (Z.testbit v (Z.of_nat n)) with false; [reflexivity|].
      rewrite <- (Z.mod_small v (2 ^ Z.of_nat n)) by lia.
      symmetry. apply Z.mod_pow2_bits_high. lia.
    + exists (2 ^ Z.of_nat n + v). split; [lia|].
      rewrite bitset_to_string_S.
      replace (Z.testbit (2 ^ Z.of_nat n + v) (Z.of_nat n)) with true.
      * f_equal. rewrite <- E. apply bitset_to_string_ext. intros i Hi.
        rewrite <- (Z.mod_pow2_bits_low _ (Z.of_nat n)) by lia.
        replace (2 ^ Z.of_nat n + v) with (v + 1 * 2 ^ Z.of_nat n) by ring.
        rewrite Z.mod_add, Z.mod_small by lia. reflexivity.
      * symmetry. apply Z.testbit_true; [lia|].
        replace (2 ^ Z.of_nat n + v) with (1 * 2 ^ Z.of_nat n + v) by ring.
        rewrite Z.div_add_l, Z.div_small by lia. reflexivity.
Qed.

Lemma fold_bits_value l :
  Forall (fun c => c = "0"%char \/ c = "1"%char) l ->
  exists v, 0 <= v < 2 ^ Z.of_nat (List.length l) /\
            bitset_to_string (List.length l) v = l /\
            fold_left bitset_digit l (Some 0) = Some v.
Proof.
  intros H. destruct (bitset_to_string_of_bits l H) as (v & Hv & E).
  exists v. split; [exact Hv|]. split; [exact E|].
  pose proof (bitset_to_string_value (List.length l) v 0) as F.
  rewrite E in F. rewrite F, Z.mod_small by lia. reflexivity.
Qed.

(** The constructor of [std::bitset] reading the first [length P <= N]
    characters of a string. *)
Lemma bitset_from_string_prefix N P rest :
  (List.length P <= N)%nat ->
  bitset_from_string N (P ++ rest) 0 (List.length P) = fold_left bitset_digit P (Some 0).
Proof.
  intros H. unfold bitset_from_string.
  replace (Nat.ltb _ 0) with false by (symmetry; apply Nat.ltb_ge; lia).
  cbn [skipn]. replace (Nat.min N (List.length P)) with (List.length P) by lia.
  rewrite firstn_app, Nat.sub_diag, firstn_all. cbn [firstn]. now rewrite app_nil_r.
Qed.

Lemma bitset_from_string_chunk w P d extra :
  List.length d = w ->
  bitset_from_string w (P ++ d ++ extra) (List.length P) w
  = fold_left bitset_digit d (Some 0).
Proof.
  intros <-. unfold bitset_from_string.
  replace (Nat.ltb _ _) with false
    by (symmetry; apply Nat.ltb_ge; rewrite length_app; lia).
  rewrite skipn_app, skipn_all2, Nat.sub_diag by lia. cbn [skipn app].
  rewrite Nat.min_id, firstn_app, Nat.sub_diag, firstn_all. cbn [firstn].
  now rewrite app_nil_r.
Qed.

Lemma skipn_bitset_to_string N m k x :
  N = (m + k)%nat -> skipn m (bitset_to_string N x) = bitset_to_string k x.
Proof.
  intros ->. induction m as [|m IH]; [reflexivity|].
  cbn [Nat.add]. rewrite bitset_to_string_S. exact IH.
Qed.

Lemma bit_chars_or_bad (s : std_string) :
  Forall (fun c => c = "0"%char \/ c = "1"%char) s \/
  Exists (fun c => c <> "0"%char /\ c <> "1"%char) s.
Proof.
  induction s as [|c s [IH|IH]].
  - left. constructor.
  - destruct (ascii_dec c "0"%char) as [H0|H0]; [left; constructor; auto|].
    destruct (ascii_dec c "1"%char) as [H1|H1]; [left; constructor; auto|].
    right. constructor. auto.
  - right. apply Exists_cons. right. exact IH.
Qed.

Lemma BitsetToStream_eq N x n :
  Z.of_nat N < 2 ^ 64 -> 0 <= n < 2 ^ 64 ->
  BitsetToStream N x n =
  if n <=? Z.of_nat N
  then Some (map (fun i => if Z.testbit x (Z.of_nat i) then "1"%char else "0"%char)
                 (seq 0 (Z.to_nat n)))
  else None.
Proof.
  intros HN Hn. unfold BitsetToStream. cbv zeta.
  destruct (Z.leb_spec n (Z.of_nat N)) as [H|H].
  - rewrite u64_small by lia.
    replace (Z.of_nat N <? Z.of_nat N - n) with false
      by (symmetry; apply Z.ltb_ge; lia).
    rewrite (skipn_bitset_to_string N _ (Z.to_nat n)) by lia.
    rewrite rev_bitset_to_string. reflexivity.
  - replace (u64 (Z.of_nat N - n)) with (Z.of_nat N - n + 2 ^ 64)
      by (symmetry; zarith).
    replace (Z.of_nat N <? Z.of_nat N - n + 2 ^ 64) with true
      by (symmetry; apply Z.ltb_lt; lia).
    reflexivity.
Qed.

Lemma StreamToBitset_fold N s :
  (List.length s <= N)%nat ->
  StreamToBitset N s = fold_left bitset_digit (rev s) (Some 0).
Proof.
  intros H. unfold StreamToBitset. cbv zeta.
  pose proof (bitset_from_string_prefix N (rev s) []) as E.
  rewrite app_nil_r in E. apply E. rewrite length_rev. exact H.
Qed.

Lemma StreamToBits_eq s : StreamToBits s = StreamToBitset 64 s.
Proof. reflexivity. Qed.

Lemma BitsToStream_eq x n : BitsToStream x n = BitsetToStream 64 (u64 x) n.
Proof. reflexivity. Qed.

Lemma StreamToBitset_rev_bits N n x :
  (n <= N)%nat ->
  StreamToBitset N (rev (bitset_to_string n x)) = Some (x mod 2 ^ Z.of_nat n).
Proof.
  intros H. rewrite StreamToBitset_fold by (rewrite length_rev, length_bitset_to_string; exact H).
  rewrite rev_involutive, bitset_to_string_value. reflexivity.
Qed.

(** Both directions of the conversion between the low bits of a bitset
    and a stream. *)
Lemma StreamToBitset_BitsetToStream_both N x n s :
  Z.of_nat N < 2 ^ 64 ->
  (0 <= n <= Z.of_nat N -> BitsetToStream N x n = Some s ->
     StreamToBitset N s = Some (x mod 2 ^ n)) /\
  (Forall (fun c => c = "0"%char \/ c = "1"%char) s -> (List.length s <= N)%nat ->
     exists v, StreamToBitset N s = Some v /\ 0 <= v < 2 ^ Z.of_nat (List.length s) /\
               BitsetToStream N v (Z.of_nat (List.length s)) = Some s).
Proof.
  intros HN. split.
  - intros Hn E. rewrite BitsetToStream_eq in E by lia.
    replace (n <=? Z.of_nat N) with true in E by (symmetry; apply Z.leb_le; lia).
    injection E as <-. rewrite <- rev_bitset_to_string, StreamToBitset_rev_bits by lia.
    rewrite Z2Nat.id by lia. reflexivity.
  - intros Hs Hl.
    destruct (fold_bits_value (rev s) (Forall_rev Hs)) as (v & Hv & E & F).
    rewrite length_rev in Hv, E.
    exists v. split; [rewrite StreamToBitset_fold by exact Hl; exact F|].
    split; [exact Hv|].
    rewrite BitsetToStream_eq by lia.
    replace (_ <=? _) with true by (symmetry; apply Z.leb_le; lia).
    rewrite Nat2Z.id, <- rev_bitset_to_string, E, rev_involutive. reflexivity.
Qed.

(** X1: [BitsetToStream<N>(bits, num_bits)] is, for [num_bits <= N], the
    stream of the [num_bits] low bits of [bits], bit [i] as character [i];
    for [num_bits > N] the [size_t] position wraps and [substr] throws. *)
Theorem BitsetToStream_chars (N : nat) (x n : Z) :
  Z.of_nat N < 2 ^ 64 -> 0 <= n < 2 ^ 64 ->
  BitsetToStream N x n =
  if n <=? Z.of_nat N
  then Some (map (fun i => if Z.testbit x (Z.of_nat i) then "1"%char else "0"%char)
                 (seq 0 (Z.to_nat n)))
  else None.
Proof. apply BitsetToStream_eq. Qed.

Lemma BitsetToStream_chars_witness :
  (Z.of_nat 8 < 2 ^ 64 /\ 0 <= 3 < 2 ^ 64) /\
  BitsetToStream 8 6 3 =
  (if 3 <=? Z.of_nat 8
   then Some (map (fun i => if Z.testbit 6 (Z.of_nat i) then "1"%char else "0"%char)
                  (seq 0 (Z.to_nat 3)))
   else None).
Proof.
  assert (H1 : Z.of_nat 8 < 2 ^ 64) by (cbn; lia).
  assert (H2 : 0 <= 3 < 2 ^ 64) by lia.
  split; [split; assumption|]. exact (BitsetToStream_chars 8 6 3 H1 H2).
Defined.

(** X2: [StreamToBitset<N>] inverts [BitsetToStream<N>]: the stream of the
    [n <= N] low bits of [x] reads back as [x mod 2^n]; and a stream of at
    most [N] characters ['0'] and ['1'] reads as a value whose stream of
    that length is the stream itself. *)
Theorem StreamToBitset_BitsetToStream (N : nat) (x n : Z) (s : std_string) :
  Z.of_nat N < 2 ^ 64 ->
  (0 <= n <= Z.of_nat N -> BitsetToStream N x n = Some s ->
     StreamToBitset N s = Some (x mod 2 ^ n)) /\
  (Forall (fun c => c = "0"%char \/ c = "1"%char) s -> (List.length s <= N)%nat ->
     exists v, StreamToBitset N s = Some v /\ 0 <= v < 2 ^ Z.of_nat (List.length s) /\
               BitsetToStream N v (Z.of_nat (List.length s)) = Some s).
Proof. apply StreamToBitset_BitsetToStream_both. Qed.

Lemma StreamToBitset_BitsetToStream_witness :
  Z.of_nat 16 < 2 ^ 64 /\
  ((0 <= 5 <= Z.of_nat 16 ->
    BitsetToStream 16 45 5 = Some ["1"; "0"; "1"; "1"; "0"]%char ->
    StreamToBitset 16 ["1"; "0"; "1"; "1"; "0"]%char = Some (45 mod 2 ^ 5)) /\
   (Forall (fun c => c = "0"%char \/ c = "1"%char) ["1"; "0"; "1"; "1"; "0"]%char ->
    (List.length ["1"; "0"; "1"; "1"; "0"]%char <= 16)%nat ->
    exists v, StreamToBitset 16 ["1"; "0"; "1"; "1"; "0"]%char = Some v /\
              0 <= v < 2 ^ Z.of_nat (List.length ["1"; "0"; "1"; "1"; "0"]%char) /\
              BitsetToStream 16 v (Z.of_nat (List.length ["1"; "0"; "1"; "1"; "0"]%char))
              = Some ["1"; "0"; "1"; "1"; "0"]%char)).
Proof.
  assert (H : Z.of_nat 16 < 2 ^ 64) by (cbn; lia).
  split; [exact H|]. exact (StreamToBitset_BitsetToStream 16 45 5 _ H).
Defined.

(** X3: [StreamToBits] and [BitsToStream] on [uint64_t]: for
    [num_bits <= 64], [BitsToStream(x, num_bits)] is the stream of the
    [num_bits] low bits of [x] (bit [i] as character [i]), and it throws
    for [num_bits > 64]; [StreamToBits] reads that stream back as
    [x mod 2^num_bits]; and a stream of at most 64 characters ['0'] and
    ['1'] is the [BitsToStream] of its [StreamToBits], at its length. *)
Theorem StreamToBits_BitsToStream (x n : Z) (s : std_string) :
  0 <= x < 2 ^ 64 -> 0 <= n < 2 ^ 64 ->
  BitsToStream x n =
    (if n <=? 64
     then Some (map (fun i => if Z.testbit x (Z.of_nat i) then "1"%char else "0"%char)
                    (seq 0 (Z.to_nat n)))
     else None) /\
  (BitsToStream x n = Some s -> StreamToBits s = Some (x mod 2 ^ n)) /\
  (Forall (fun c => c = "0"%char \/ c = "1"%char) s -> (List.length s <= 64)%nat ->
     exists v, StreamToBits s = Some v /\
               BitsToStream v (Z.of_nat (List.length s)) = Some s).
Proof.
  intros Hx Hn.
  assert (H64 : Z.of_nat 64 < 2 ^ 64) by (cbn; lia).
  destruct (StreamToBitset_BitsetToStream_both 64 x n s H64) as [R1 R2].
  rewrite !StreamToBits_eq, !BitsToStream_eq, (u64_small x Hx).
  split; [apply BitsetToStream_eq; lia|]. split.
  - intros E. apply R1; [|exact E].
    rewrite BitsetToStream_eq in E by lia.
    destruct (Z.leb_spec n (Z.of_nat 64)); [lia | discriminate].
  - intros Hs Hl. destruct (R2 Hs Hl) as (v & E & Hv & E').
    exists v. split; [exact E|].
    rewrite BitsToStream_eq, u64_small; [exact E'|].
    split; [lia|]. eapply Z.lt_le_trans; [apply Hv|].
    apply Z.pow_le_mono_r; lia.
Qed.

Lemma StreamToBits_BitsToStream_witness :
  (0 <= 6 < 2 ^ 64 /\ 0 <= 3 < 2 ^ 64) /\
  (BitsToStream 6 3 =
    (if 3 <=? 64
     then Some (map (fun i => if Z.testbit 6 (Z.of_nat i) then "1"%char else "0"%char)
                    (seq 0 (Z.to_nat 3)))
     else None) /\
  (BitsToStream 6 3 = Some ["0"; "1"; "1"]%char ->
     StreamToBits ["0"; "1"; "1"]%char = Some (6 mod 2 ^ 3)) /\
  (Forall (fun c => c = "0"%char \/ c = "1"%char) ["0"; "1"; "1"]%char ->
   (List.length ["0"; "1"; "1"]%char <= 64)%nat ->
     exists v, StreamToBits ["0"; "1"; "1"]%char = Some v /\
               BitsToStream v (Z.of_nat (List.length ["0"; "1"; "1"]%char))
               = Some ["0"; "1"; "1"]%char)).
Proof.
  assert (H1 : 0 <= 6 < 2 ^ 64) by lia.
  assert (H2 : 0 <= 3 < 2 ^ 64) by lia.
  split; [split; assumption|]. exact (StreamToBits_BitsToStream 6 3 _ H1 H2).
Defined.

(** X4: [StreamToBitset<N>] reads only the last [N] characters of its
    stream (so [StreamToBits] only the last 64): the bits before them are
    dropped. *)
Theorem StreamToBitset_last_chars (N : nat) (p s : std_string) :
  Forall (fun c => c = "0"%char \/ c = "1"%char) p ->
  List.length s = N ->
  StreamToBitset N (p ++ s) = StreamToBitset N s /\
  (N = 64%nat -> StreamToBits (p ++ s) = StreamToBits s).
Proof.
  intros _ Hs.
  assert (H1 : StreamToBitset N (p ++ s) = StreamToBitset N s).
  { unfold StreamToBitset, bitset_from_string. cbv zeta.
    rewrite !length_rev, length_app, rev_app_distr.
    rewrite !(proj2 (Nat.ltb_ge _ 0)) by lia. cbn [skipn].
    replace (Nat.min N (List.length p + List.length s)) with N by lia.
    replace (Nat.min N (List.length s)) with N by lia.
    rewrite firstn_app, length_rev, Hs, Nat.sub_diag, firstn_O, app_nil_r.
    reflexivity. }
  split; [exact H1|]. intros ->. rewrite !StreamToBits_eq. exact H1.
Qed.

Lemma StreamToBitset_last_chars_witness :
  (Forall (fun c => c = "0"%char \/ c = "1"%char) ["0"; "1"]%char /\
   List.length ["1"; "0"; "1"]%char = 3%nat) /\
  (StreamToBitset 3 (["0"; "1"]%char ++ ["1"; "0"; "1"]%char)
   = StreamToBitset 3 ["1"; "0"; "1"]%char /\
   (3%nat = 64%nat -> StreamToBits (["0"; "1"]%char ++ ["1"; "0"; "1"]%char)
                      = StreamToBits ["1"; "0"; "1"]%char)).
Proof.
  assert (H0 : Forall (fun c => c = "0"%char \/ c = "1"%char) ["0"; "1"]%char)
    by (repeat constructor; auto).
  assert (H : List.length ["1"; "0"; "1"]%char = 3%nat) by reflexivity.
  split; [split; assumption|]. exact (StreamToBitset_last_chars 3 _ _ H0 H).
Defined.

(** X5: a stream of at most [N] characters makes [StreamToBitset<N>]
    throw exactly when one of its characters is neither ['0'] nor ['1'];
    the same holds for [StreamToBits] and streams of at most 64
    characters. *)
Theorem StreamToBitset_invalid (N : nat) (s : std_string) :
  ((List.length s <= N)%nat ->
     (StreamToBitset N s = None <-> Exists (fun c => c <> "0"%char /\ c <> "1"%char) s)) /\
  ((List.length s <= 64)%nat ->
     (StreamToBits s = None <-> Exists (fun c => c <> "0"%char /\ c <> "1"%char) s)).
Proof.
  assert (G : forall M, (List.length s <= M)%nat ->
             (StreamToBitset M s = None <->
              Exists (fun c => c <> "0"%char /\ c <> "1"%char) s)).
  { intros M HM. rewrite StreamToBitset_fold by exact HM. split.
    - intros H. destruct (bit_chars_or_bad s) as [Hs|Hs]; [|exact Hs].
      destruct (fold_bits_value (rev s) (Forall_rev Hs)) as (v & _ & _ & F).
      rewrite F in H. discriminate.
    - intros H. apply fold_bitset_digit_bad, Exists_rev, H. }
  split; [apply G|]. intros H. rewrite StreamToBits_eq. apply G, H.
Qed.

Lemma PadToWord_length N s :
  List.length (PadToWord N s) =
  (if (List.length s mod N =? 0)%nat then List.length s
   else List.length s + (N - List.length s mod N))%nat.
Proof.
  unfold PadToWord.
  destruct (Nat.eqb_spec (List.length s mod N) 0); cbn [negb]; [reflexivity|].
  rewrite length_app, repeat_length. reflexivity.
Qed.

Lemma PadToWord_aligned N s :
  (List.length s mod N = 0)%nat -> PadToWord N s = s.
Proof. intros H. unfold PadToWord. rewrite H. reflexivity. Qed.

(** X6: for [N >= 1] and a string short enough that
    [num_bits + (N - 1)] does not wrap in [size_t], [PadToWord<N>] makes
    the string [NumBitsToNumWords<N>] words of [N] characters long, and
    padding an already padded string changes nothing. *)
Theorem PadToWord_NumBitsToNumWords (N : nat) (s : std_string) :
  (1 <= N)%nat -> Z.of_nat (List.length s) + Z.of_nat N <= 2 ^ 64 ->
  Z.of_nat (List.length (PadToWord N s))
  = Z.of_nat N * NumBitsToNumWords (Z.of_nat N) (Z.of_nat (List.length s)) /\
  PadToWord N (PadToWord N s) = PadToWord N s.
Proof.
  intros HN Hl.
  pose proof (Nat.div_mod_eq (List.length s) N) as Hdm.
  pose proof (Nat.mod_upper_bound (List.length s) N ltac:(lia)) as Hr.
  split.
  - rewrite PadToWord_length. unfold NumBitsToNumWords.
    rewrite (u64_small (Z.of_nat N - 1)), u64_small by lia.
    destruct (Nat.eqb_spec (List.length s mod N) 0) as [E|E].
    + rewrite <- (Z.div_unique_pos (Z.of_nat (List.length s) + (Z.of_nat N - 1))
                   (Z.of_nat N) (Z.of_nat (List.length s / N)) (Z.of_nat N - 1))
        by nia.
      nia.
    + rewrite <- (Z.div_unique_pos (Z.of_nat (List.length s) + (Z.of_nat N - 1))
                   (Z.of_nat N) (Z.of_nat (List.length s / N) + 1)
                   (Z.of_nat (List.length s mod N) - 1)) by nia.
      nia.
  - apply PadToWord_aligned. rewrite PadToWord_length.
    destruct (Nat.eqb_spec (List.length s mod N) 0) as [E|E]; [exact E|].
    replace (List.length s + (N - List.length s mod N))%nat
      with ((List.length s / N + 1) * N)%nat by lia.
    apply Nat.Div0.mod_mul.
Qed.

Lemma PadToWord_NumBitsToNumWords_witness :
  ((1 <= 8)%nat /\ Z.of_nat (List.length (list_ascii_of_string "10110")) + Z.of_nat 8 <= 2 ^ 64) /\
  (Z.of_nat (List.length (PadToWord 8 (list_ascii_of_string "10110")))
   = Z.of_nat 8 * NumBitsToNumWords (Z.of_nat 8)
                    (Z.of_nat (List.length (list_ascii_of_string "10110"))) /\
   PadToWord 8 (PadToWord 8 (list_ascii_of_string "10110"))
   = PadToWord 8 (list_ascii_of_string "10110")).
Proof.
  assert (H1 : (1 <= 8)%nat) by lia.
  assert (H2 : Z.of_nat (List.length (list_ascii_of_string "10110")) + Z.of_nat 8 <= 2 ^ 64)
    by (cbn; lia).
  split; [split; assumption|]. exact (PadToWord_NumBitsToNumWords 8 _ H1 H2).
Defined.

Lemma map_seq_offset {A} (f : nat -> A) k m :
  map f (seq k m) = map (fun i => f (k + i)%nat) (seq 0 m).
Proof.
  revert f k. induction m as [|m IH]; intros f k; [reflexivity|].
  cbn [seq map]. rewrite Nat.add_0_r. f_equal.
  rewrite IH, (IH _ 1%nat). apply map_ext. intros i. f_equal. lia.
Qed.

(** X7: character [i] of [BufferToStream] of a buffer of [w]-bit words is
    bit [i mod w] of word [i / w]: the words follow each other, each one
    least significant bit first. *)
Theorem BufferToStream_bits (w : nat) (b : list Z) :
  BufferToStream w b =
  map (fun i => if Z.testbit (nth (i / w) b 0) (Z.of_nat (i mod w)) then "1"%char else "0"%char)
      (seq 0 (w * List.length b)).
Proof.
  destruct w as [|w'].
  - unfold BufferToStream. induction b as [|x b IH]; [reflexivity|].
    cbn [map List.concat]. rewrite IH. reflexivity.
  - set (w := S w'). assert (Hw : w <> 0%nat) by discriminate.
    induction b as [|x b IH].
    + unfold BufferToStream. cbn [map List.concat]. rewrite Nat.mul_0_r. reflexivity.
    + unfold BufferToStream in *. cbn [map List.concat List.length].
      rewrite IH, rev_bitset_to_string.
      replace (w * S (List.length b))%nat with (w + w * List.length b)%nat by lia.
      rewrite seq_app, map_app, (map_seq_offset _ w). cbn [Nat.add].
      f_equal.
      * apply map_ext_in. intros i Hi. apply in_seq in Hi.
        rewrite Nat.div_small, Nat.mod_small by lia. reflexivity.
      * apply map_ext. intros i.
        replace (w + i)%nat with (i + 1 * w)%nat by lia.
        rewrite Nat.div_add, Nat.Div0.mod_add, Nat.add_1_r by exact Hw.
        reflexivity.
Qed.

Lemma length_concat_uniform {A} (w : nat) (D : list (list A)) :
  Forall (fun d => List.length d = w) D ->
  List.length (List.concat D) = (w * List.length D)%nat.
Proof.
  induction 1 as [|d D Hd _ IH]; cbn [List.concat List.length]; [lia|].
  rewrite length_app, Hd, IH. lia.
Qed.

Lemma split_chunks {A} (w q : nat) (R : list A) :
  List.length R = (w * q)%nat ->
  exists D, List.length D = q /\ Forall (fun d => List.length d = w) D /\
            List.concat (rev D) = R.
Proof.
  revert R. induction q as [|q IH]; intros R HR.
  - exists []. split; [reflexivity|]. split; [constructor|].
    destruct R as [|a R]; [reflexivity|]. cbn [List.length] in HR. lia.
  - destruct (IH (firstn (w * q) R)) as (D & HD1 & HD2 & HD3).
    { rewrite length_firstn. lia. }
    exists (skipn (w * q) R :: D). split; [cbn [List.length]; lia|]. split.
    + constructor; [rewrite length_skipn; lia | exact HD2].
    + cbn [rev]. rewrite concat_app. cbn [List.concat].
      rewrite app_nil_r, HD3. apply firstn_skipn.
Qed.

Lemma Forall_concat_inv {A} (P : A -> Prop) (L : list (list A)) :
  Forall P (List.concat L) -> Forall (Forall P) L.
Proof.
  intros H. apply Forall_forall. intros l Hl. apply Forall_forall. intros x Hx.
  apply (proj1 (Forall_forall P _) H). apply in_concat. exists l. split; assumption.
Qed.

Lemma rev_inj {A} (l1 l2 : list A) : rev l1 = rev l2 -> l1 = l2.
Proof. intros H. rewrite <- (rev_involutive l1), H. apply rev_involutive. Qed.

(** The loop of [StreamToBuffer] over a reversed string [P0 ++ concat (rev
    D)], [P0] shorter than a word and [D] a list of word-long chunks: it
    reads the chunks of [D] in order. *)
Lemma StreamToBuffer_loop_chunks w P0 D extra fuel :
  (1 <= w <= 64)%nat -> (List.length P0 < w)%nat -> (List.length D < fuel)%nat ->
  Forall (fun d => List.length d = w) D ->
  Z.of_nat (List.length P0) + Z.of_nat w * Z.of_nat (List.length D) < 2 ^ 31 ->
  StreamToBuffer_loop fuel w (Z.of_nat w) (P0 ++ List.concat (rev D) ++ extra)
    (Z.of_nat (List.length P0) + Z.of_nat w * Z.of_nat (List.length D) - Z.of_nat w)
  = read_words w D.
Proof.
  revert extra fuel.
  induction D as [|d D IH]; intros extra fuel Hw HP Hf HD Hl;
    (destruct fuel as [|fuel]; [cbn [List.length] in Hf; lia|]).
  - cbn [StreamToBuffer_loop].
    replace (0 <=? _) with false
      by (symmetry; apply Z.leb_gt; cbn [List.length]; lia).
    reflexivity.
  - pose proof (Forall_inv HD) as Hd. pose proof (Forall_inv_tail HD) as HD'.
    cbn [List.length] in Hf, Hl. rewrite Nat2Z.inj_succ in Hl.
    cbn [rev]. rewrite concat_app. cbn [List.concat].
    rewrite app_nil_r, <- !app_assoc, app_assoc.
    assert (HPl : List.length (P0 ++ List.concat (rev D))
                  = (List.length P0 + w * List.length D)%nat)
      by (rewrite length_app, (length_concat_uniform w), length_rev;
          [reflexivity | apply Forall_rev; exact HD']).
    cbn [StreamToBuffer_loop List.length read_words].
    replace (Z.of_nat (List.length P0) + Z.of_nat w * Z.of_nat (S (List.length D))
             - Z.of_nat w)
      with (Z.of_nat (List.length (P0 ++ List.concat (rev D)))) by (rewrite HPl; lia).
    replace (0 <=? Z.of_nat (List.length (P0 ++ List.concat (rev D)))) with true
      by (symmetry; apply Z.leb_le; lia).
    rewrite !Nat2Z.id, bitset_from_string_chunk by exact Hd.
    destruct (fold_left bitset_digit d (Some 0)) as [v|]; [|reflexivity].
    unfold int_checked.
    replace ((- 2 ^ 31 <=? Z.of_nat (List.length (P0 ++ List.concat (rev D))) - Z.of_nat w)
             && (Z.of_nat (List.length (P0 ++ List.concat (rev D))) - Z.of_nat w <? 2 ^ 31))
      with true
      by (symmetry; apply andb_true_intro;
          split; [apply Z.leb_le | apply Z.ltb_lt]; rewrite HPl;
          change (2 ^ 31) with 2147483648 in *; lia).
    replace (Z.of_nat (List.length (P0 ++ List.concat (rev D))) - Z.of_nat w)
      with (Z.of_nat (List.length P0) + Z.of_nat w * Z.of_nat (List.length D) - Z.of_nat w)
      by (rewrite HPl; lia).
    rewrite <- app_assoc, IH by (auto; lia).
    reflexivity.
Qed.

(** [StreamToBuffer] cut into the chunks its loop reads and the prefix (of
    the reversed string) read after the loop. *)
Lemma StreamToBuffer_decompose w s :
  (1 <= w <= 64)%nat -> Z.of_nat (List.length s) < 2 ^ 31 ->
  exists P0 D, rev s = P0 ++ List.concat (rev D) /\
    List.length P0 = (List.length s mod w)%nat /\
    Forall (fun d => List.length d = w) D /\
    StreamToBuffer w s =
      (buffer <- read_words w D ;;
       if negb (List.length P0 =? 0)%nat then
         word <- fold_left bitset_digit P0 (Some 0) ;;
         Some (buffer ++ [uw (Z.of_nat w) word])
       else Some buffer).
Proof.
  intros Hw Hl.
  remember (List.length s) as n eqn:En.
  assert (Hn : List.length (rev s) = n) by (rewrite length_rev; auto).
  pose proof (Nat.div_mod_eq n w) as Hdm.
  pose proof (Nat.mod_upper_bound n w ltac:(lia)) as Hr.
  destruct (split_chunks w (n / w) (skipn (n mod w) (rev s))) as (D & HD1 & HD2 & HD3).
  { rewrite length_skipn, Hn. lia. }
  assert (HP : List.length (firstn (n mod w) (rev s)) = (n mod w)%nat)
    by (rewrite length_firstn, Hn; lia).
  assert (Hsplit : rev s = firstn (n mod w) (rev s) ++ List.concat (rev D))
    by (rewrite HD3; symmetry; apply firstn_skipn).
  remember (firstn (n mod w) (rev s)) as P0 eqn:EP.
  exists P0, D. split; [exact Hsplit|]. split; [exact HP|]. split; [exact HD2|].
  unfold StreamToBuffer. cbv zeta.
  rewrite Hn.
  assert (Hi : i32 (Z.of_nat w) = Z.of_nat w)
    by (unfold i32; rewrite Z.mod_small; [lia|]; change (2 ^ 32) with 4294967296;
        change (2 ^ 31) with 2147483648; lia).
  assert (Hi' : i32 (Z.of_nat n) = Z.of_nat n)
    by (unfold i32; rewrite Z.mod_small; [lia|]; change (2 ^ 32) with 4294967296;
        change (2 ^ 31) with 2147483648 in *; lia).
  rewrite Hi, Hi'.
  unfold int_checked at 1.
  replace ((- 2 ^ 31 <=? Z.of_nat n - Z.of_nat w) && (Z.of_nat n - Z.of_nat w <? 2 ^ 31))
    with true
    by (symmetry; apply andb_true_intro; split; [apply Z.leb_le | apply Z.ltb_lt];
        change (2 ^ 31) with 2147483648 in *; lia).
  cbv beta iota. rewrite Nat2Z.id, HP, Hsplit.
  rewrite <- (app_nil_r (List.concat (rev D))).
  replace (Z.of_nat n - Z.of_nat w)
    with (Z.of_nat (List.length P0) + Z.of_nat w * Z.of_nat (List.length D) - Z.of_nat w)
    by (rewrite HP, HD1; nia).
  rewrite StreamToBuffer_loop_chunks by (auto; nia).
  destruct (read_words w D) as [B|]; [|reflexivity].
  cbv beta iota.
  destruct (Nat.eqb_spec (n mod w) 0) as [E|E]; cbn [negb]; [reflexivity|].
  rewrite <- HP, bitset_from_string_prefix by lia. reflexivity.
Qed.

Lemma read_words_bits w D :
  Forall (fun d => List.length d = w /\
                   Forall (fun c => c = "0"%char \/ c = "1"%char) d) D ->
  exists B, read_words w D = Some B /\ Forall (fun x => 0 <= x < 2 ^ Z.of_nat w) B /\
            map (bitset_to_string w) B = D.
Proof.
  induction 1 as [|d D [Hl Hd] _ IH].
  - exists []. split; [reflexivity|]. split; [constructor | reflexivity].
  - destruct IH as (B & E & HB & EB).
    destruct (fold_bits_value d Hd) as (v & Hv & Ev & Fv). rewrite Hl in Hv, Ev.
    exists (v :: B). cbn [read_words]. rewrite Fv, E.
    rewrite uw_small by lia. split; [reflexivity|]. split; [constructor; auto|].
    cbn [map]. rewrite Ev, EB. reflexivity.
Qed.

Lemma read_words_bad w D :
  Exists (fun d => Exists (fun c => c <> "0"%char /\ c <> "1"%char) d) D ->
  read_words w D = None.
Proof.
  induction 1 as [d D Hd | d D _ IH]; cbn [read_words].
  - rewrite fold_bitset_digit_bad by exact Hd. reflexivity.
  - destruct (fold_left bitset_digit d (Some 0)); [|reflexivity]. rewrite IH. reflexivity.
Qed.

Lemma StreamToBuffer_bits_pad w s :
  (1 <= w <= 64)%nat ->
  Forall (fun c => c = "0"%char \/ c = "1"%char) s ->
  Z.of_nat (List.length s) < 2 ^ 31 ->
  exists b, StreamToBuffer w s = Some b /\
            Forall (fun x => 0 <= x < 2 ^ Z.of_nat w) b /\
            BufferToStream w b = PadToWord w s.
Proof.
  intros Hw Hs Hl.
  destruct (StreamToBuffer_decompose w s Hw Hl) as (P0 & D & Hsplit & HP & HD & E).
  assert (Hrs : Forall (fun c => c = "0"%char \/ c = "1"%char) (rev s))
    by (apply Forall_rev; exact Hs).
  rewrite Hsplit in Hrs. apply Forall_app in Hrs as [HP01 HC01].
  apply Forall_concat_inv, Forall_rev in HC01. rewrite rev_involutive in HC01.
  destruct (read_words_bits w D) as (B & EB & HB & MB).
  { apply Forall_and; assumption. }
  rewrite EB in E. cbv beta iota in E.
  pose proof (Nat.mod_upper_bound (List.length s) w ltac:(lia)) as Hr.
  destruct (Nat.eqb_spec (List.length P0) 0) as [Z0|NZ]; cbn [negb] in E.
  - exists B. split; [exact E|]. split; [exact HB|].
    rewrite PadToWord_aligned by lia.
    apply rev_inj. rewrite rev_BufferToStream, map_rev, MB, Hsplit.
    apply length_zero_iff_nil in Z0. rewrite Z0. reflexivity.
  - destruct (fold_bits_value P0 HP01) as (v & Hv & Ev & Fv).
    rewrite Fv in E. cbv beta iota in E.
    assert (Hv' : 0 <= v < 2 ^ Z.of_nat w).
    { split; [lia|]. eapply Z.lt_le_trans; [apply Hv|]. apply Z.pow_le_mono_r; lia. }
    rewrite uw_small in E by exact Hv'.
    exists (B ++ [v]). split; [exact E|]. split.
    { apply Forall_app. split; [exact HB | constructor; [exact Hv' | constructor]]. }
    unfold PadToWord. rewrite <- HP.
    destruct (Nat.eqb_spec (List.length P0) 0) as [|_]; [contradiction|]. cbn [negb].
    apply rev_inj. rewrite rev_BufferToStream, rev_app_distr, rev_app_distr, rev_repeat.
    cbn [rev app map List.concat]. rewrite map_rev, MB, Hsplit, app_assoc.
    f_equal.
    assert (Ew : w = (w - List.length P0 + List.length P0)%nat) by lia.
    rewrite Ew at 1. rewrite bitset_to_string_zeros by exact Hv. rewrite Ev. reflexivity.
Qed.

(** X8: [StreamToBuffer] then [BufferToStream] pads: for a word type of
    [w] bits ([w] one of 8, 16, 32, 64) and a stream of ['0'] and ['1']
    shorter than [2^31] characters, [StreamToBuffer] returns words of the
    type whose stream is the input stream followed by ['0'] characters up
    to a multiple of [w], that is [PadToWord<w>] of it. *)
Theorem StreamToBuffer_pads (w : nat) (s : std_string) :
  In w [8; 16; 32; 64]%nat ->
  Forall (fun c => c = "0"%char \/ c = "1"%char) s ->
  Z.of_nat (List.length s) < 2 ^ 31 ->
  exists b, StreamToBuffer w s = Some b /\
            Forall (fun x => 0 <= x < 2 ^ Z.of_nat w) b /\
            BufferToStream w b = PadToWord w s.
Proof.
  intros Hw. apply StreamToBuffer_bits_pad. cbn [In] in Hw. lia.
Qed.

Lemma StreamToBuffer_pads_witness :
  (In 8%nat [8; 16; 32; 64]%nat /\
   Forall (fun c => c = "0"%char \/ c = "1"%char) (list_ascii_of_string "1101") /\
   Z.of_nat (List.length (list_ascii_of_string "1101")) < 2 ^ 31) /\
  exists b, StreamToBuffer 8 (list_ascii_of_string "1101") = Some b /\
            Forall (fun x => 0 <= x < 2 ^ Z.of_nat 8) b /\
            BufferToStream 8 b = PadToWord 8 (list_ascii_of_string "1101").
Proof.
  assert (H1 : In 8%nat [8; 16; 32; 64]%nat) by (cbn; auto).
  assert (H2 : Forall (fun c => c = "0"%char \/ c = "1"%char) (list_ascii_of_string "1101"))
    by (cbn; repeat constructor; auto).
  assert (H3 : Z.of_nat (List.length (list_ascii_of_string "1101")) < 2 ^ 31) by (cbn; lia).
  split; [split; [|split]; assumption|]. exact (StreamToBuffer_pads 8 _ H1 H2 H3).
Defined.

(** X9: for a word type of [w] bits ([w] one of 8, 16, 32, 64) and a
    stream shorter than [2^31] characters, [StreamToBuffer] throws exactly
    when a character of the stream is neither ['0'] nor ['1']. *)
Theorem StreamToBuffer_invalid_char (w : nat) (s : std_string) :
  In w [8; 16; 32; 64]%nat ->
  Z.of_nat (List.length s) < 2 ^ 31 ->
  (StreamToBuffer w s = None <-> Exists (fun c => c <> "0"%char /\ c <> "1"%char) s).
Proof.
  intros Hw Hl.
  assert (Hw' : (1 <= w <= 64)%nat) by (cbn [In] in Hw; lia).
  split.
  - intros H. destruct (bit_chars_or_bad s) as [Hs|Hs]; [|exact Hs].
    destruct (StreamToBuffer_bits_pad w s Hw' Hs Hl) as (b & E & _).
    rewrite E in H. discriminate.
  - intros Hs.
    destruct (StreamToBuffer_decompose w s Hw' Hl) as (P0 & D & Hsplit & HP & HD & E).
    rewrite E. apply Exists_rev in Hs. rewrite Hsplit in Hs.
    apply Exists_app in Hs as [Hs|Hs].
    + destruct (read_words w D); [|reflexivity]. cbv beta iota.
      destruct P0 as [|c P0]; [inversion Hs|]. cbn [List.length negb Nat.eqb].
      rewrite fold_bitset_digit_bad by exact Hs. reflexivity.
    + rewrite read_words_bad; [reflexivity|].
      apply Exists_exists in Hs as (c & Hc & Hbad).
      apply in_concat in Hc as (d & Hd & Hc).
      apply Exists_exists. exists d. split; [apply in_rev; exact Hd|].
      apply Exists_exists. exists c. split; assumption.
Qed.

Lemma StreamToBuffer_invalid_char_witness :
  (In 16%nat [8; 16; 32; 64]%nat /\
   Z.of_nat (List.length (list_ascii_of_string "10x1")) < 2 ^ 31) /\
  (StreamToBuffer 16 (list_ascii_of_string "10x1") = None <->
   Exists (fun c => c <> "0"%char /\ c <> "1"%char) (list_ascii_of_string "10x1")).
Proof.
  assert (H1 : In 16%nat [8; 16; 32; 64]%nat) by (cbn; auto).
  assert (H2 : Z.of_nat (List.length (list_ascii_of_string "10x1")) < 2 ^ 31) by (cbn; lia).
  split; [split; assumption|]. exact (StreamToBuffer_invalid_char 16 _ H1 H2).
Defined.







